(** * flame-diff: the collapsed-stack parser, the diff engine and the
      correlation report of [app.py], embedded in Rocq.

    Python [str] values are lists of characters; a character is an [ascii],
    read as a code point below 256.  Python [int] is [Z].  A [dict] from
    stack signatures to counts is a [gmap], a [set] of strings a [gset].
    The float percentages of the diff engine are carried as exact rationals
    ([Q]); binary rounding error is outside the model. *)

From Stdlib Require Import ZArith QArith Qround Qabs Ascii String List Lia Lqa.
From Stdlib Require Import Sorting.Sorted Sorting.Permutation.
From stdpp Require Import gmap strings list fin_maps sorting.

Abbreviation str := list_ascii_of_string.

(** ** Python string primitives *)
Module PyStr.

Definition ord (c : ascii) : nat := nat_of_ascii c.

Definition in_range (lo hi : nat) (c : ascii) : bool :=
  (lo <=? ord c)%nat && (ord c <=? hi)%nat.

(** [str.isspace] (and [\s] of [re]) on code points below 256:
    TAB LF VT FF CR, FS GS RS US, SPACE, NEL and NBSP. *)
Definition is_space (c : ascii) : bool :=
  in_range 9 13 c || in_range 28 32 c || (ord c =? 133)%nat || (ord c =? 160)%nat.

(** [\d] of [re]: the decimal digits below 256 are 0-9 only. *)
Definition is_digit (c : ascii) : bool := in_range 48 57 c.

Definition is_lower (c : ascii) : bool := in_range 97 122 c.
Definition is_upper (c : ascii) : bool := in_range 65 90 c.

(** [[a-zA-Z]] *)
Definition is_letter (c : ascii) : bool := is_lower c || is_upper c.

(** [[a-f0-9]] *)
Definition is_hex (c : ascii) : bool := in_range 97 102 c || is_digit c.

(** [\w] of [re] on code points below 256: [str.isalnum] or underscore. *)
Definition is_word (c : ascii) : bool :=
  is_digit c || is_letter c || (ord c =? 95)%nat
  || (ord c =? 170)%nat || (ord c =? 178)%nat || (ord c =? 179)%nat
  || (ord c =? 181)%nat || (ord c =? 185)%nat || (ord c =? 186)%nat
  || in_range 188 190 c || in_range 192 214 c || in_range 216 246 c
  || in_range 248 255 c.

Definition is_char (a : ascii) (c : ascii) : bool := Ascii.eqb a c.
Definition not_char (a : ascii) (c : ascii) : bool := negb (Ascii.eqb a c).

(** [s.lstrip()], [s.rstrip()], [s.strip()] *)
Fixpoint lstrip (s : list ascii) : list ascii :=
  match s with
  | c :: s' => if is_space c then lstrip s' else s
  | [] => []
  end.

Fixpoint rstrip (s : list ascii) : list ascii :=
  match s with
  | c :: s' =>
      match rstrip s' with
      | [] => if is_space c then [] else [c]
      | t => c :: t
      end
  | [] => []
  end.

Definition strip (s : list ascii) : list ascii := rstrip (lstrip s).

(** [s.split(sep)] for a one-character separator: never the empty list. *)
Fixpoint split (sep : ascii) (s : list ascii) : list (list ascii) :=
  match s with
  | [] => [[]]
  | c :: s' =>
      if Ascii.eqb c sep then [] :: split sep s'
      else match split sep s' with
           | h :: t => (c :: h) :: t
           | [] => [[c]]
           end
  end.

(** The cut made by [s.rsplit(sep, 1)]: the text before and after the last
    occurrence of [sep], when there is one. *)
Fixpoint rcut (sep : ascii) (s : list ascii) : option (list ascii * list ascii) :=
  match s with
  | [] => None
  | c :: s' =>
      match rcut sep s' with
      | Some (a, b) => Some (c :: a, b)
      | None => if Ascii.eqb c sep then Some ([], s') else None
      end
  end.

(** [s.rsplit(sep, 1)] *)
Definition rsplit1 (sep : ascii) (s : list ascii) : list (list ascii) :=
  match rcut sep s with
  | Some (a, b) => [a; b]
  | None => [s]
  end.

(** [sep.join(parts)] *)
Fixpoint join (sep : ascii) (parts : list (list ascii)) : list ascii :=
  match parts with
  | [] => []
  | [x] => x
  | x :: rest => x ++ sep :: join sep rest
  end.

(** [s.startswith(p)], returning what follows the prefix. *)
Fixpoint drop_prefix (p s : list ascii) : option (list ascii) :=
  match p, s with
  | [], _ => Some s
  | a :: p', c :: s' => if Ascii.eqb a c then drop_prefix p' s' else None
  | _ :: _, [] => None
  end.

(** [p in s] *)
Fixpoint contains (p s : list ascii) : bool :=
  match drop_prefix p s with
  | Some _ => true
  | None => match s with
            | [] => false
            | _ :: s' => contains p s'
            end
  end.

End PyStr.

(** ** The fragment of Python's [re] used by the normalizer

    A backtracking matcher in continuation-passing style: alternatives are
    tried in order and repetition is greedy, as in [re]. *)
Module Re.
Import PyStr.

Inductive re : Type :=
| Lit (l : list ascii)                 (* literal text *)
| Cls (p : ascii → bool)               (* one character of a class *)
| Rep (p : ascii → bool) (lo : nat)    (* class{lo,}, greedy: [*] is 0, [+] is 1 *)
| Seq (r1 r2 : re)
| Alt (r1 r2 : re)                     (* r1|r2 *)
| Opt (r : re)                         (* r?, greedy *)
| Grp (i : nat) (r : re)               (* capture group number i *)
| Eos                                  (* [$]: at the end, or before a final newline *)
| Look (r : re).                       (* (?=r) *)

Definition caps := list (nat * list ascii).

Definition group (i : nat) (cs : caps) : list ascii :=
  match List.find (λ e, (fst e =? i)%nat) cs with
  | Some e => snd e
  | None => []
  end.

Fixpoint many {R : Type} (p : ascii → bool) (lo : nat) (s : list ascii)
    (k : list ascii → option R) : option R :=
  let stop := match lo with O => k s | S _ => None end in
  match s with
  | c :: s' =>
      if p c then
        match many p (pred lo) s' k with
        | Some r => Some r
        | None => stop
        end
      else stop
  | [] => stop
  end.

Fixpoint rmatch (R : Type) (r : re) (s : list ascii) (cs : caps)
    (k : list ascii → caps → option R) {struct r} : option R :=
  match r with
  | Lit l =>
      match drop_prefix l s with
      | Some s' => k s' cs
      | None => None
      end
  | Cls p =>
      match s with
      | c :: s' => if p c then k s' cs else None
      | [] => None
      end
  | Rep p lo => many p lo s (λ s', k s' cs)
  | Seq r1 r2 => rmatch R r1 s cs (λ s' cs', rmatch R r2 s' cs' k)
  | Alt r1 r2 =>
      match rmatch R r1 s cs k with
      | Some x => Some x
      | None => rmatch R r2 s cs k
      end
  | Opt r1 =>
      match rmatch R r1 s cs k with
      | Some x => Some x
      | None => k s cs
      end
  | Grp i r1 =>
      rmatch R r1 s cs
        (λ s' cs', k s' ((i, take (length s - length s') s) :: cs'))
  | Eos =>
      match s with
      | [] => k s cs
      | [c] => if Ascii.eqb c "010" then k s cs else None
      | _ => None
      end
  | Look r1 =>
      match rmatch caps r1 s cs (λ _ cs', Some cs') with
      | Some cs' => k s cs'
      | None => None
      end
  end.

(** [pattern.match] at the head of [s]: the length of the match and its groups. *)
Definition match_here (r : re) (s : list ascii) : option (nat * caps) :=
  rmatch _ r s [] (λ s' cs, Some (length s - length s', cs)).

(** Replacement templates: literal text and group references. *)
Inductive titem : Type :=
| TLit (l : list ascii)
| TGrp (i : nat).

Definition expand (t : list titem) (cs : caps) : list ascii :=
  concat (List.map (λ it, match it with TLit l => l | TGrp i => group i cs end) t).

(** [re.sub(r, t, s)]: leftmost matches, left to right, not overlapping.
    [skip] counts the characters of the current match still to be dropped. *)
Fixpoint sub_from (r : re) (t : list titem) (skip : nat) (s : list ascii)
    : list ascii :=
  match skip with
  | S n =>
      match s with
      | [] => []
      | _ :: s' => sub_from r t n s'
      end
  | O =>
      match match_here r s with
      | Some (len, cs) =>
          expand t cs ++
          match s with
          | [] => []
          | c :: s' =>
              match len with
              | O => c :: sub_from r t 0 s'
              | S n => sub_from r t n s'
              end
          end
      | None =>
          match s with
          | [] => []
          | c :: s' => c :: sub_from r t 0 s'
          end
      end
  end.

Definition re_sub (r : re) (t : list titem) (s : list ascii) : list ascii :=
  sub_from r t 0 s.

End Re.

(** ** Exceptions *)
Module Exn.

Inductive exn : Type := ValueError | ZeroDivisionError.

Inductive result (A : Type) : Type :=
| Ok (a : A)
| Raise (e : exn).
Arguments Ok {A} a.
Arguments Raise {A} e.

Definition bind {A B : Type} (m : result A) (f : A → result B) : result B :=
  match m with
  | Ok a => f a
  | Raise e => Raise e
  end.

(** [try: body  except ValueError: handler] *)
Definition try_except_ValueError {A : Type} (body : result A) (handler : A) : result A :=
  match body with
  | Ok a => Ok a
  | Raise ValueError => Ok handler
  | Raise e => Raise e
  end.

End Exn.

#[global] Instance result_bind : MBind Exn.result := λ A B f m, Exn.bind m f.

(** ** class FlameGraphParser *)
Module FlameGraphParser.
Import PyStr Re Exn.

(** [\s*\[[a-zA-Z]\]\s*$] *)
Definition annotation_re : re :=
  Seq (Rep is_space 0) (Seq (Lit (str "[")) (Seq (Cls is_letter)
    (Seq (Lit (str "]")) (Seq (Rep is_space 0) Eos)))).

(** [_+\s*$] *)
Definition underscores_re : re :=
  Seq (Rep (is_char "_") 1) (Seq (Rep is_space 0) Eos).

(** [snappy-[^-]+-[^-]+-[^-]+-[^-]+-[^-]+-[^-]+-libsnappyjava\.so] *)
Definition snappy_re : re :=
  let seg := Seq (Rep (not_char "-") 1) (Lit (str "-")) in
  Seq (Lit (str "snappy-"))
    (Seq seg (Seq seg (Seq seg (Seq seg (Seq seg (Seq seg
      (Lit (str "libsnappyjava.so")))))))).

(** [(lib\w+)-(\d+\.\d+\.\d+)?-[a-f0-9]+-\d+-[a-f0-9]+-[a-f0-9]+-[a-f0-9]+-([^/]+\.so)] *)
Definition native_lib_re : re :=
  let dash := Lit (str "-") in
  let dot := Lit (str ".") in
  let hexs := Rep is_hex 1 in
  let nums := Rep is_digit 1 in
  Seq (Grp 1 (Seq (Lit (str "lib")) (Rep is_word 1)))
   (Seq dash
   (Seq (Opt (Grp 2 (Seq nums (Seq dot (Seq nums (Seq dot nums))))))
   (Seq dash (Seq hexs
   (Seq dash (Seq nums
   (Seq dash (Seq hexs
   (Seq dash (Seq hexs
   (Seq dash (Seq hexs
   (Seq dash
   (Grp 3 (Seq (Rep (not_char "/") 1) (Lit (str ".so"))))))))))))))))).

(** The lookahead [(?=\$|\.|$)] *)
Definition boundary : re :=
  Look (Alt (Lit (str "$")) (Alt (Lit (str ".")) Eos)).

(** [\$\$[a-f0-9]{3,}(?=\$|\.|$)] *)
Definition hex2_re : re :=
  Seq (Lit (str "$$")) (Seq (Rep is_hex 3) boundary).

(** [\$[a-f0-9]{3,}(?=\$|\.|$)] *)
Definition hex1_re : re :=
  Seq (Lit (str "$")) (Seq (Rep is_hex 3) boundary).

(** [\d+] *)
Definition digits_re : re := Rep is_digit 1.

(** The two cleaning substitutions and the [strip] of the loop body. *)
Definition clean (frame : list ascii) : list ascii :=
  let clean_frame := re_sub annotation_re [] frame in
  strip (re_sub underscores_re [] clean_frame).

(** The guarded snappy substitution. *)
Definition snappy (f : list ascii) : list ascii :=
  if contains (str "libsnappyjava.so") f
  then re_sub snappy_re [TLit (str "snappy-*-libsnappyjava.so")] f
  else f.

Definition native_lib (f : list ascii) : list ascii :=
  re_sub native_lib_re [TGrp 1; TLit (str "-*-"); TGrp 3] f.

Definition hex2 (f : list ascii) : list ascii :=
  re_sub hex2_re [TLit (str "$$*")] f.

Definition hex1 (f : list ascii) : list ascii :=
  re_sub hex1_re [TLit (str "$*")] f.

Definition digits (f : list ascii) : list ascii :=
  re_sub digits_re [TLit (str "*")] f.

(** The body of the loop over frames in [normalize_stack_trace]. *)
Definition normalize_frame (frame : list ascii) : list ascii :=
  let clean_frame := clean frame in
  let normalized_frame := clean_frame in
  let normalized_frame := snappy normalized_frame in
  let normalized_frame := native_lib normalized_frame in
  let normalized_frame := hex2 normalized_frame in
  let normalized_frame := hex1 normalized_frame in
  let normalized_frame := digits normalized_frame in
  normalized_frame.

Definition normalize_stack_trace (stack_trace : list ascii) : list ascii :=
  let frames := split ";" stack_trace in
  join ";" (List.map normalize_frame frames).

(** [int(s)] for text without surrounding whitespace, which is how the parser
    calls it ([int(parts[1].strip())]): an optional sign, then decimal digits
    with single underscores allowed between digits. Anything else raises
    [ValueError]. (The interpreter's cap on the number of digits, which also
    raises [ValueError], is not modelled.) *)
Definition digit_val (c : ascii) : Z := Z.of_nat (ord c - 48).

Fixpoint digits_val (acc : Z) (after_digit : bool) (s : list ascii) : option Z :=
  match s with
  | [] => if after_digit then Some acc else None
  | c :: s' =>
      if is_digit c then digits_val (10 * acc + digit_val c) true s'
      else if is_char "_" c then
        (if after_digit then digits_val acc false s' else None)
      else None
  end.

Definition int_literal (s : list ascii) : option Z :=
  match s with
  | c :: s' =>
      if is_char "-" c then Z.opp <$> digits_val 0 false s'
      else if is_char "+" c then digits_val 0 false s'
      else digits_val 0 false s
  | [] => None
  end.

Definition py_int (s : list ascii) : result Z :=
  match int_literal s with
  | Some n => Ok n
  | None => Raise ValueError
  end.

(** The parser's loop state: [stack_counts] and [total_samples]. *)
Definition state : Type := gmap (list ascii) Z * Z.

(** [stack_counts[k] += count] on a [defaultdict(int)] *)
Definition add_count (k : list ascii) (count : Z) (stack_counts : gmap (list ascii) Z)
    : gmap (list ascii) Z :=
  <[k := (default 0 (stack_counts !! k) + count)%Z]> stack_counts.

(** The body of the [try] block. *)
Definition try_body (parts0 parts1 : list ascii) (st : state) : result state :=
  let stack_trace := strip parts0 in
  count ← py_int (strip parts1);
  let normalized_stack := normalize_stack_trace stack_trace in
  Ok (add_count normalized_stack count (fst st), (snd st + count)%Z).

(** One iteration of the loop over lines. *)
Definition parse_line (line : list ascii) (st : state) : result state :=
  match strip line with
  | [] => Ok st
  | _ :: _ =>
      match rsplit1 " " line with
      | [parts0; parts1] => try_except_ValueError (try_body parts0 parts1 st) st
      | _ => Ok st
      end
  end.

Fixpoint parse_lines (lines : list (list ascii)) (st : state) : result state :=
  match lines with
  | [] => Ok st
  | line :: rest => st' ← parse_line line st; parse_lines rest st'
  end.

(** [parse_file]; its two [print] calls only write to the log and are left out. *)
Definition parse_file (file_content : list ascii) : result state :=
  parse_lines (split "010" (strip file_content)) (∅, 0%Z).

End FlameGraphParser.

(** ** class FlameGraphDiffer *)
Module FlameGraphDiffer.
Import PyStr Exn.

(** One entry of a category list ([stack_info]). *)
Record stack_info : Type := {
  stack : list ascii;
  old_count : Z;
  new_count : Z;
  old_percent : Q;
  new_percent : Q;
  diff_count : Z;
  diff_percent : Q
}.

Record summary_info : Type := {
  old_total : Z;
  new_total : Z;
  total_change : Z;
  total_change_percent : Q
}.

Record results : Type := {
  added : list stack_info;
  removed : list stack_info;
  increased : list stack_info;
  decreased : list stack_info;
  unchanged : list stack_info;
  summary : summary_info
}.

(** [a / b] on integers: raises [ZeroDivisionError] when [b] is 0. *)
Definition py_truediv (a b : Z) : result Q :=
  if (b =? 0)%Z then Raise ZeroDivisionError
  else Ok (inject_Z a / inject_Z b)%Q.

(** [(count / total * 100) if total > 0 else 0] *)
Definition percent_of (count total : Z) : result Q :=
  if (0 <? total)%Z then q ← py_truediv count total; Ok (q * 100)%Q
  else Ok 0%Q.

(** Rounding to the nearest integer, ties to even. *)
Definition round_half_even (q : Q) : Z :=
  let f := Qfloor q in
  match (q - inject_Z f ?= 1 # 2)%Q with
  | Lt => f
  | Gt => (f + 1)%Z
  | Eq => if Z.even f then f else (f + 1)%Z
  end.

(** [round(q, 2)] *)
Definition round2 (q : Q) : Q := Qred (round_half_even (q * 100) # 100).

(** The dictionary built for one stack in the loop of [calculate_diff]. *)
Definition make_stack_info (old_stacks new_stacks : gmap (list ascii) Z)
    (old_total new_total : Z) (stack : list ascii) : result stack_info :=
  let old_count := default 0%Z (old_stacks !! stack) in
  let new_count := default 0%Z (new_stacks !! stack) in
  old_percent ← percent_of old_count old_total;
  new_percent ← percent_of new_count new_total;
  let diff_count := (new_count - old_count)%Z in
  let diff_percent := (new_percent - old_percent)%Q in
  Ok {| stack := stack;
        old_count := old_count;
        new_count := new_count;
        old_percent := round2 old_percent;
        new_percent := round2 new_percent;
        diff_count := diff_count;
        diff_percent := round2 diff_percent |}.

Definition with_added (f : list stack_info → list stack_info) (r : results) : results :=
  {| added := f (added r); removed := removed r; increased := increased r;
     decreased := decreased r; unchanged := unchanged r; summary := summary r |}.
Definition with_removed (f : list stack_info → list stack_info) (r : results) : results :=
  {| added := added r; removed := f (removed r); increased := increased r;
     decreased := decreased r; unchanged := unchanged r; summary := summary r |}.
Definition with_increased (f : list stack_info → list stack_info) (r : results) : results :=
  {| added := added r; removed := removed r; increased := f (increased r);
     decreased := decreased r; unchanged := unchanged r; summary := summary r |}.
Definition with_decreased (f : list stack_info → list stack_info) (r : results) : results :=
  {| added := added r; removed := removed r; increased := increased r;
     decreased := f (decreased r); unchanged := unchanged r; summary := summary r |}.
Definition with_unchanged (f : list stack_info → list stack_info) (r : results) : results :=
  {| added := added r; removed := removed r; increased := increased r;
     decreased := decreased r; unchanged := f (unchanged r); summary := summary r |}.

(** The [if]/[elif] chain that appends the entry to one category. *)
Definition classify (info : stack_info) (r : results) : results :=
  let append := λ l, l ++ [info] in
  if (old_count info =? 0)%Z && (0 <? new_count info)%Z then with_added append r
  else if (0 <? old_count info)%Z && (new_count info =? 0)%Z then with_removed append r
  else if (0 <? diff_count info)%Z then with_increased append r
  else if (diff_count info <? 0)%Z then with_decreased append r
  else with_unchanged append r.

(** [for stack in all_stacks: ...], in the order the set is iterated. *)
Fixpoint classify_all (old_stacks new_stacks : gmap (list ascii) Z)
    (old_total new_total : Z) (all_stacks : list (list ascii)) (r : results)
    : result results :=
  match all_stacks with
  | [] => Ok r
  | stack :: rest =>
      info ← make_stack_info old_stacks new_stacks old_total new_total stack;
      classify_all old_stacks new_stacks old_total new_total rest (classify info r)
  end.

(** [a < b] on sort keys. *)
Definition key_lt (a b : Q) : bool := negb (Qle_bool b a).

(** [l.sort(key=key, reverse=True)]: the stable sort into descending key
    order, written as an insertion sort. *)
Fixpoint insert_desc {A : Type} (key : A → Q) (x : A) (l : list A) : list A :=
  match l with
  | [] => [x]
  | y :: l' => if key_lt (key x) (key y) then y :: insert_desc key x l' else x :: l
  end.

Definition sort_desc {A : Type} (key : A → Q) (l : list A) : list A :=
  foldr (insert_desc key) [] l.

(** [lambda x: abs(x['diff_percent'])] *)
Definition sort_key (x : stack_info) : Q := Qabs (diff_percent x).

Definition sort_categories (r : results) : results :=
  with_decreased (sort_desc sort_key)
    (with_increased (sort_desc sort_key)
      (with_removed (sort_desc sort_key)
        (with_added (sort_desc sort_key) r))).

(** [calculate_diff] with the iteration order of [all_stacks] made explicit. *)
Definition calculate_diff_in (all_stacks : list (list ascii))
    (old_stacks new_stacks : gmap (list ascii) Z) (old_total new_total : Z)
    : result results :=
  total_change_percent ←
    (if (0 <? old_total)%Z
     then q ← py_truediv (new_total - old_total) old_total; Ok (q * 100)%Q
     else Ok 0%Q);
  let r := {| added := []; removed := []; increased := []; decreased := [];
              unchanged := [];
              summary := {| old_total := old_total;
                            new_total := new_total;
                            total_change := (new_total - old_total)%Z;
                            total_change_percent := total_change_percent |} |} in
  r ← classify_all old_stacks new_stacks old_total new_total all_stacks r;
  Ok (sort_categories r).

(** [all_stacks = set(old_stacks.keys()) | set(new_stacks.keys())] *)
Definition all_stacks (old_stacks new_stacks : gmap (list ascii) Z) : gset (list ascii) :=
  dom old_stacks ∪ dom new_stacks.

Definition calculate_diff (old_stacks new_stacks : gmap (list ascii) Z)
    (old_total new_total : Z) : result results :=
  calculate_diff_in (elements (all_stacks old_stacks new_stacks))
    old_stacks new_stacks old_total new_total.

(** The five category lists, one after the other. *)
Definition categories (r : results) : list stack_info :=
  added r ++ removed r ++ increased r ++ decreased r ++ unchanged r.

End FlameGraphDiffer.

(** ** The analysis of [debug_stacks] *)
Module DebugStacks.
Import PyStr Exn FlameGraphParser FlameGraphDiffer.

(** [stack_parts[-1].split('/')[-1] if '/' in stack_parts[-1] else stack_parts[-1]],
    under [if stack_parts:]. *)
Definition last_method (stack : list ascii) : option (list ascii) :=
  let stack_parts := split ";" stack in
  match last stack_parts with
  | Some leaf =>
      Some (if contains (str "/") leaf
            then default [] (last (split "/" leaf))
            else leaf)
  | None => None
  end.

(** The loop filling [added_methods] (and [removed_methods]). *)
Definition methods_of (items : list stack_info) : gset (list ascii) :=
  foldl (λ acc item,
           match last_method (stack item) with
           | Some m => acc ∪ {[m]}
           | None => acc
           end) ∅ items.

Record example : Type := {
  method : list ascii;
  added_example : list ascii;
  removed_example : list ascii
}.

(** The entries whose stack contains [method]. *)
Definition examples_of (method : list ascii) (items : list stack_info) : list stack_info :=
  List.filter (λ item, contains method (stack item)) items.

(** The loop building [examples] over the chosen methods. *)
Fixpoint build_examples (methods : list (list ascii)) (r : results) : list example :=
  match methods with
  | [] => []
  | method :: rest =>
      let added_examples := examples_of method (added r) in
      let removed_examples := examples_of method (removed r) in
      match added_examples, removed_examples with
      | a :: _, b :: _ =>
          {| method := method; added_example := stack a; removed_example := stack b |}
          :: build_examples rest r
      | _, _ => build_examples rest r
      end
  end.

Record report_summary : Type := {
  total_added : nat;
  total_removed : nat;
  total_increased : nat;
  total_decreased : nat
}.

Record report : Type := {
  common_methods_count : nat;
  common_methods : list (list ascii);
  examples : list example;
  report_totals : report_summary
}.

(** The report computed from a diff result; [list(common_methods)] is the
    enumeration [elements]. *)
Definition correlate (diff_results : results) : report :=
  let added_methods := methods_of (added diff_results) in
  let removed_methods := methods_of (removed diff_results) in
  let common := added_methods ∩ removed_methods in
  {| common_methods_count := size common;
     common_methods := take 10 (elements common);
     examples := build_examples (take 5 (elements common)) diff_results;
     report_totals :=
       {| total_added := length (added diff_results);
          total_removed := length (removed diff_results);
          total_increased := length (increased diff_results);
          total_decreased := length (decreased diff_results) |} |}.

(** The endpoint on two decoded files. *)
Definition debug_stacks (old_content new_content : list ascii) : result report :=
  old ← parse_file old_content;
  new ← parse_file new_content;
  diff_results ← calculate_diff (fst old) (fst new) (snd old) (snd new);
  Ok (correlate diff_results).

End DebugStacks.

(** ** Notions used to state the properties *)
Module Props.
Import PyStr Re Exn FlameGraphParser FlameGraphDiffer DebugStacks.

(** The sum of all values of a frequency table. *)
Definition table_sum (m : gmap (list ascii) Z) : Z :=
  map_fold (λ _ v acc, (v + acc)%Z) 0%Z m.

(** What one line does to the loop state: nothing, or one count added. *)
Inductive line_effect (line : list ascii) (st : state) : state → Prop :=
| line_skipped : line_effect line st st
| line_counted parts0 parts1 count :
    rcut " " line = Some (parts0, parts1) →
    int_literal (strip parts1) = Some count →
    line_effect line st
      (add_count (normalize_stack_trace (strip parts0)) count (fst st),
       (snd st + count)%Z).

(** The leaf identifier as the specification words it: the last
    [;]-delimited component, then the last [/]-delimited component of that. *)
Definition leaf_identifier (signature : list ascii) : list ascii :=
  default [] (last (split "/" (default [] (last (split ";" signature))))).

(** [P] holds of a text and of each of its suffixes. *)
Fixpoint all_suffixes (P : list ascii → Prop) (s : list ascii) : Prop :=
  P s ∧ match s with
        | [] => True
        | _ :: s' => all_suffixes P s'
        end.

(** The text starts where the lookahead [(?=\$|\.|$)] succeeds. *)
Definition at_boundary (s : list ascii) : bool :=
  match s with
  | [] => true
  | c :: s' =>
      is_char "$" c || is_char "." c
      || (Ascii.eqb c "010" && match s' with [] => true | _ => false end)
  end.

(** The text starts with a maximal run of at least [lo] characters of
    [[a-f0-9]] that ends at a boundary. *)
Fixpoint hex_tail (lo : nat) (s : list ascii) : bool :=
  match s with
  | c :: s' =>
      if is_hex c then hex_tail (pred lo) s'
      else match lo with O => at_boundary s | S _ => false end
  | [] => match lo with O => true | S _ => false end
  end.

(** The text starts with [dollars] and then a run of three or more
    characters of [[a-f0-9]] up to a boundary: where [hex1_re] (one dollar)
    and [hex2_re] (two) match. *)
Definition hex_at (dollars : list ascii) (s : list ascii) : bool :=
  match drop_prefix dollars s with
  | Some s' => hex_tail 3 s'
  | None => false
  end.

(** One dollar or two. *)
Definition is_dollars (d : list ascii) : Prop :=
  d = ["$"%char] ∨ d = ["$"%char; "$"%char].

(** The two hexadecimal patterns, by their run of dollars:
    [hex1_re] is [hex_re "$"] and [hex2_re] is [hex_re "$$"]. *)
Definition hex_re (dollars : list ascii) : re :=
  Seq (Lit dollars) (Seq (Rep is_hex 3) boundary).

(** The characters of the replacement texts of the normalizer. *)
Definition repl_char (c : ascii) : bool :=
  is_char "*" c || is_char "$" c || is_char "-" c || is_char "." c || is_lower c.

(** Every captured group is made of characters with [P]. *)
Definition caps_in (P : ascii → Prop) (cs : caps) : Prop :=
  Forall (λ e, Forall P (snd e)) cs.

(** The text has no decimal digit. *)
Definition digit_free (s : list ascii) : Prop := Forall (λ c, is_digit c = false) s.

(** The entry of a signature carries its counts in the two tables. *)
Definition counts_of (old_stacks new_stacks : gmap (list ascii) Z) (i : stack_info) : Prop :=
  old_count i = default 0%Z (old_stacks !! stack i) ∧
  new_count i = default 0%Z (new_stacks !! stack i) ∧
  diff_count i = (new_count i - old_count i)%Z.

(** The five classes of the diff. *)
Definition is_added (i : stack_info) : Prop :=
  (old_count i = 0 ∧ 0 < new_count i)%Z.
Definition is_removed (i : stack_info) : Prop :=
  (0 < old_count i ∧ new_count i = 0)%Z.
Definition is_increased (i : stack_info) : Prop :=
  ¬ is_added i ∧ ¬ is_removed i ∧ (0 < new_count i - old_count i)%Z.
Definition is_decreased (i : stack_info) : Prop :=
  ¬ is_added i ∧ ¬ is_removed i ∧ (new_count i - old_count i < 0)%Z.
Definition is_unchanged (i : stack_info) : Prop :=
  ¬ is_added i ∧ ¬ is_removed i ∧ new_count i = old_count i.

(** Percentages against a total of 0 are 0. *)
Definition zero_percents (old_total new_total : Z) (i : stack_info) : Prop :=
  (old_total = 0%Z → old_percent i = 0%Q) ∧ (new_total = 0%Z → new_percent i = 0%Q).

(** Every list of a result holds entries of its class, built from the tables. *)
Record classified (old_stacks new_stacks : gmap (list ascii) Z)
    (old_total new_total : Z) (r : results) : Prop := {
  cl_counts : Forall (counts_of old_stacks new_stacks) (categories r);
  cl_percents : Forall (zero_percents old_total new_total) (categories r);
  cl_added : Forall is_added (added r);
  cl_removed : Forall is_removed (removed r);
  cl_increased : Forall is_increased (increased r);
  cl_decreased : Forall is_decreased (decreased r);
  cl_unchanged : Forall is_unchanged (unchanged r)
}.

(** Each example pairs the first added and the first removed entry whose
    stack contains the method. *)
Definition first_pair (r : results) (e : example) : Prop :=
  ∃ a b,
    List.find (λ i, contains (method e) (stack i)) (added r) = Some a ∧
    added_example e = stack a ∧
    List.find (λ i, contains (method e) (stack i)) (removed r) = Some b ∧
    removed_example e = stack b.

(** Adjacent entries are in descending order of [abs(diff_percent)]. *)
Definition descending (l : list stack_info) : Prop :=
  Sorted (λ r1 r2, (Qabs (diff_percent r2) <= Qabs (diff_percent r1))%Q) l.

End Props.

(** ** The endpoint [diff_flame_graphs] *)
Module DiffEndpoint.
Import PyStr Exn FlameGraphParser FlameGraphDiffer.

(** The endpoint on two decoded files: both are parsed and the tables diffed. *)
Definition diff_flame_graphs (old_content new_content : list ascii) : result results :=
  old ← parse_file old_content;
  new ← parse_file new_content;
  calculate_diff (fst old) (fst new) (snd old) (snd new).

End DiffEndpoint.

(** ** Notions used to state further properties *)
Module Notions.
Import PyStr Re Exn FlameGraphParser FlameGraphDiffer DebugStacks.

(** Every maximal run of decimal digits replaced by one star; [in_run] says
    that the preceding character was a digit. *)
Fixpoint collapse_digits (in_run : bool) (s : list ascii) : list ascii :=
  match s with
  | [] => []
  | c :: s' =>
      if is_digit c
      then if in_run then collapse_digits true s' else "*"%char :: collapse_digits true s'
      else c :: collapse_digits false s'
  end.

(** A character that none of the first four steps of the normalizer looks
    for: no whitespace, bracket, underscore, dash or dollar. *)
Definition quiet_char (c : ascii) : bool :=
  negb (is_space c || is_char "[" c || is_char "_" c || is_char "-" c || is_char "$" c).

Definition quiet (s : list ascii) : Prop := Forall (λ c, quiet_char c = true) s.

(** The same but for the dollar. *)
Definition calm_char (c : ascii) : bool :=
  negb (is_space c || is_char "[" c || is_char "_" c || is_char "-" c).

(** The signature and the count that a line adds, when it is a valid line. *)
Definition line_entry (line : list ascii) : option (list ascii * Z) :=
  match strip line with
  | [] => None
  | _ :: _ =>
      match rcut " " line with
      | Some (parts0, parts1) =>
          match int_literal (strip parts1) with
          | Some count => Some (normalize_stack_trace (strip parts0), count)
          | None => None
          end
      | None => None
      end
  end.

(** The entries of the valid lines of a text, in order. *)
Definition entries (lines : list (list ascii)) : list (list ascii * Z) :=
  omap line_entry lines.

(** The sum of the counts that a list of entries gives to signature [k]. *)
Definition count_for (k : list ascii) (es : list (list ascii * Z)) : Z :=
  foldr (λ e acc, if decide (fst e = k) then (snd e + acc)%Z else acc) 0%Z es.

(** The sum of all counts of a list of entries. *)
Definition count_all (es : list (list ascii * Z)) : Z :=
  foldr (λ e acc, (snd e + acc)%Z) 0%Z es.

(** The sum of [diff_count] over a list of diff entries. *)
Definition diff_count_sum (l : list stack_info) : Z :=
  foldr (λ i acc, (diff_count i + acc)%Z) 0%Z l.

(** [(count / total * 100) if total > 0 else 0], as a number. *)
Definition percent_value (count total : Z) : Q :=
  if (0 <? total)%Z then (inject_Z count / inject_Z total * 100)%Q else 0%Q.

(** The entry that the loop of [calculate_diff] builds for a signature. *)
Definition info_of (old_stacks new_stacks : gmap (list ascii) Z)
    (old_total new_total : Z) (k : list ascii) : stack_info :=
  let old_count := default 0%Z (old_stacks !! k) in
  let new_count := default 0%Z (new_stacks !! k) in
  let old_percent := percent_value old_count old_total in
  let new_percent := percent_value new_count new_total in
  {| stack := k;
     old_count := old_count;
     new_count := new_count;
     old_percent := round2 old_percent;
     new_percent := round2 new_percent;
     diff_count := (new_count - old_count)%Z;
     diff_percent := round2 (new_percent - old_percent) |}.

(** Two results with the same entries in each category, in any order, and
    the same summary. *)
Definition same_categories (r r' : results) : Prop :=
  added r ≡ₚ added r' ∧ removed r ≡ₚ removed r' ∧
  increased r ≡ₚ increased r' ∧ decreased r ≡ₚ decreased r' ∧
  unchanged r ≡ₚ unchanged r' ∧ summary r = summary r'.

(** The sum of a function over a list of signatures. *)
Definition sum_over (f : list ascii → Z) (ks : list (list ascii)) : Z :=
  foldr (λ k acc, (f k + acc)%Z) 0%Z ks.

End Notions.

(** * Facts about the string primitives *)
Module PyStrFacts.
Import PyStr.

Lemma split_not_nil sep s : split sep s ≠ [].
Proof.
  destruct s as [|c s]; simpl; [done |].
  destruct (Ascii.eqb c sep); [done |]. by destruct (split sep s).
Qed.

End PyStrFacts.

(** * Properties of the normalizer *)
Module NormalizeProofs.
Import PyStr Re Exn FlameGraphParser Props PyStrFacts.

#[local] Arguments Ascii.eqb : simpl never.
#[local] Arguments at_boundary : simpl never.
#[local] Arguments is_char : simpl never.
#[local] Arguments not_char : simpl never.
#[local] Arguments is_hex : simpl never.
#[local] Arguments is_digit : simpl never.
#[local] Arguments is_space : simpl never.
#[local] Arguments is_word : simpl never.
#[local] Arguments is_letter : simpl never.

(** *** The matcher *)

Lemma drop_prefix_length p s s' :
  drop_prefix p s = Some s' → s' = drop (length p) s ∧ length p ≤ length s.
Proof.
  revert s. induction p as [|a p IH]; intros [|c s]; simpl; try done.
  - intros [= <-]. split; [done | lia].
  - intros [= <-]. split; [done | lia].
  - destruct (Ascii.eqb a c); [| done]. intros H.
    destruct (IH _ H). split; [done | lia].
Qed.

(** A successful greedy repetition took [n ≥ lo] characters of the class and
    went on with what follows them. *)
Lemma many_inv {R : Type} p lo s (k : list ascii → option R) x :
  many p lo s k = Some x →
  ∃ n, lo ≤ n ∧ n ≤ length s ∧ Forall (λ c, p c = true) (take n s) ∧
       k (drop n s) = Some x.
Proof.
  revert lo. induction s as [|c s IH]; intros lo; simpl.
  - destruct lo; [| done]. intros H. exists 0.
    split; [lia |]. split; [done |]. by split; [constructor |].
  - assert (Hstop : match lo with O => k (c :: s) | S _ => None end = Some x →
              ∃ n, lo ≤ n ∧ n ≤ S (length s) ∧
                   Forall (λ c, p c = true) (take n (c :: s)) ∧
                   k (drop n (c :: s)) = Some x).
    { destruct lo; [| done]. intros H. exists 0.
      split; [lia |]. split; [lia |]. by split; [constructor |]. }
    destruct (p c) eqn:Hp; [| done].
    destruct (many p (pred lo) s k) as [y|] eqn:Hm; [| done].
    intros [= ->]. destruct (IH _ Hm) as (n & Hlo & Hn & Hall & Hk).
    exists (S n). split; [lia |]. split; [lia |]. split; [| done].
    simpl. by constructor.
Qed.

(** A successful match called its continuation on a suffix of the text. *)
Lemma rmatch_inv (R : Type) r s cs (k : list ascii → caps → option R) x :
  rmatch R r s cs k = Some x →
  ∃ n cs', n ≤ length s ∧ k (drop n s) cs' = Some x.
Proof.
  revert R s cs k x.
  induction r as [l|p|p lo|r1 IH1 r2 IH2|r1 IH1 r2 IH2|r1 IH1|i r1 IH1| |r1 IH1];
    intros R s cs k x; simpl.
  - destruct (drop_prefix l s) as [s'|] eqn:Hd; [| done].
    apply drop_prefix_length in Hd as [-> Hlen]. intros H. by eexists _, _.
  - destruct s as [|c s]; [done |]. destruct (p c); [| done].
    intros H. exists 1, cs. split; [simpl; lia | done].
  - intros H. apply many_inv in H as (n & _ & Hn & _ & Hk). by exists n, cs.
  - intros H. apply IH1 in H as (n1 & cs1 & Hn1 & H).
    apply IH2 in H as (n2 & cs2 & Hn2 & H).
    rewrite length_drop in Hn2. rewrite drop_drop in H.
    exists (n1 + n2), cs2. split; [lia | done].
  - destruct (rmatch R r1 s cs k) as [y|] eqn:H1.
    + intros [= ->]. by apply IH1 in H1.
    + apply IH2.
  - destruct (rmatch R r1 s cs k) as [y|] eqn:H1.
    + intros [= ->]. by apply IH1 in H1.
    + intros H. exists 0, cs. split; [lia | done].
  - intros H. apply IH1 in H as (n & cs' & Hn & H). by eexists _, _.
  - destruct s as [|c [|c' s]]; [| |done].
    + intros H. exists 0, cs. by split.
    + destruct (Ascii.eqb c "010"); [| done].
      intros H. exists 0, cs. split; [lia | done].
  - destruct (rmatch caps r1 s cs _) as [cs'|]; [| done].
    intros H. exists 0, cs'. split; [lia | done].
Qed.

(** The lookahead of the two hexadecimal patterns. *)
Lemma boundary_spec (R : Type) s cs (k : list ascii → caps → option R) :
  rmatch R boundary s cs k = if at_boundary s then k s cs else None.
Proof.
  unfold boundary, at_boundary, is_char. simpl.
  destruct s as [|c s]; [done |]. simpl.
  destruct (Ascii.eqb "$" c); [done |].
  destruct (Ascii.eqb "." c); [done |]. simpl.
  destruct s; rewrite ?andb_false_r, ?andb_true_r; [| done].
  by destruct (Ascii.eqb c "010").
Qed.

Lemma is_hex_not_boundary c s : is_hex c = true → at_boundary (c :: s) = false.
Proof.
  intros H. unfold at_boundary, is_char.
  destruct (Ascii.eqb_spec "$" c) as [<-|_]; [done |].
  destruct (Ascii.eqb_spec "." c) as [<-|_]; [done |].
  by destruct (Ascii.eqb_spec c "010") as [->|_].
Qed.

(** The run of [[a-f0-9]{lo,}] followed by the lookahead succeeds exactly
    when [hex_tail] says so. *)
Lemma many_hex_tail {R : Type} (k : list ascii → option R) lo s :
  (∀ u, at_boundary u = true → is_Some (k u)) →
  (∀ u, at_boundary u = false → k u = None) →
  if hex_tail lo s then is_Some (many is_hex lo s k) else many is_hex lo s k = None.
Proof.
  intros Hyes Hno. revert lo. induction s as [|c s IH]; intros lo; simpl.
  - destruct lo; [by apply Hyes | done].
  - destruct (is_hex c) eqn:Hc.
    + specialize (IH (pred lo)). destruct (hex_tail (pred lo) s).
      * destruct IH as [y ->]. by eexists.
      * rewrite IH. destruct lo; [| done].
        apply Hno. by apply is_hex_not_boundary.
    + destruct lo; [| done].
      destruct (at_boundary (c :: s)) eqn:Hb; [by apply Hyes | by apply Hno].
Qed.

Lemma hex_re_match dollars s :
  if hex_at dollars s then is_Some (match_here (hex_re dollars) s)
  else match_here (hex_re dollars) s = None.
Proof.
  unfold hex_at, match_here, hex_re. cbn [rmatch].
  destruct (drop_prefix dollars s) as [s'|]; [| done].
  apply many_hex_tail; intros u Hu; rewrite boundary_spec, Hu; [by eexists | done].
Qed.

Lemma hex_re_match_inv dollars s len cs :
  match_here (hex_re dollars) s = Some (len, cs) →
  length dollars ≤ len ∧ hex_at dollars s = true.
Proof.
  intros H. split.
  - unfold match_here, hex_re in H. cbn [rmatch] in H.
    destruct (drop_prefix dollars s) as [s'|] eqn:Hd; [| done].
    apply drop_prefix_length in Hd as [-> Hlen].
    apply many_inv in H as (n & _ & Hn & _ & H).
    rewrite boundary_spec in H. destruct (at_boundary _); [| done].
    injection H as <- _. rewrite !length_drop in *. lia.
  - pose proof (hex_re_match dollars s) as Hs.
    destruct (hex_at dollars s); [done |]. congruence.
Qed.

Lemma digits_re_match_inv s len cs :
  match_here digits_re s = Some (len, cs) →
  0 < len ∧ ∃ c s', s = c :: s' ∧ is_digit c = true.
Proof.
  unfold match_here, digits_re. cbn [rmatch]. intros H.
  apply many_inv in H as (n & Hlo & Hn & Hall & H).
  injection H as <- _. rewrite length_drop. split; [lia |].
  destruct s as [|c s']; [simpl in Hn; lia |].
  exists c, s'. split; [done |].
  destruct n; [lia |]. simpl in Hall. by inversion Hall.
Qed.

Lemma many_total {R : Type} p s (k : list ascii → option R) :
  (∀ u, is_Some (k u)) → is_Some (many p 0 s k).
Proof.
  intros Hk. induction s as [|c s IH]; simpl; [done |].
  destruct (p c); [| done]. by destruct IH as [y ->].
Qed.

Lemma digits_re_match c s : is_digit c = true → is_Some (match_here digits_re (c :: s)).
Proof.
  intros Hc. unfold match_here, digits_re. cbn [rmatch many]. rewrite Hc.
  match goal with |- context [many is_digit _ s ?k] =>
    destruct (many_total is_digit s k) as [y Hy]; [by eexists |]
  end.
  simpl in *. rewrite Hy. by eexists.
Qed.

Lemma hex_at_cons a dollars c s :
  hex_at (a :: dollars) (c :: s) = Ascii.eqb a c && hex_at dollars s.
Proof. unfold hex_at. simpl. by destruct (Ascii.eqb a c). Qed.

(** *** One substitution pass with a constant replacement *)
Section pass.
Variables (r : re) (repl : list ascii).

Hypothesis match_nil : match_here r [] = None.
Hypothesis match_pos : ∀ s len cs, match_here r s = Some (len, cs) → 0 < len.

Lemma sub_from_step c s :
  sub_from r [TLit repl] 0 (c :: s) =
    match match_here r (c :: s) with
    | Some (S n, _) => repl ++ sub_from r [TLit repl] n s
    | _ => c :: sub_from r [TLit repl] 0 s
    end.
Proof.
  cbn [sub_from]. destruct (match_here r (c :: s)) as [[len cs]|] eqn:Hm; [| done].
  unfold expand. simpl. rewrite app_nil_r.
  destruct len; [| done]. apply match_pos in Hm. lia.
Qed.

Lemma sub_from_nil : sub_from r [TLit repl] 0 [] = [].
Proof. cbn [sub_from]. by rewrite match_nil. Qed.

Hypothesis repl_not_nil : repl ≠ [].

Lemma sub_from_nil_inv s : sub_from r [TLit repl] 0 s = [] → s = [].
Proof.
  destruct s as [|c s]; [done |]. rewrite sub_from_step.
  destruct (match_here r (c :: s)) as [[[|n] cs]|]; [done | | done].
  intros H. apply app_eq_nil in H as [H _]. done.
Qed.

(** What the replacement looks like to the hexadecimal patterns. *)
Hypothesis repl_tail : ∀ s len cs lo rest,
  match_here r s = Some (len, cs) →
  hex_tail lo (repl ++ rest) = true → hex_tail lo s = true.
Hypothesis repl_hex_at : ∀ dollars rest,
  is_dollars dollars → hex_at dollars (repl ++ rest) = false.
Hypothesis repl_nowhere : ∀ dollars rest,
  is_dollars dollars →
  all_suffixes (λ u, hex_at dollars u = false) rest →
  all_suffixes (λ u, hex_at dollars u = false) (repl ++ rest).

Lemma hex_tail_sub lo s :
  hex_tail lo (sub_from r [TLit repl] 0 s) = true → hex_tail lo s = true.
Proof.
  revert lo. induction s as [|c s IH]; intros lo; [by rewrite sub_from_nil |].
  rewrite sub_from_step.
  destruct (match_here r (c :: s)) as [[[|n] cs]|] eqn:Hm.
  - apply match_pos in Hm. lia.
  - by apply (repl_tail _ _ _ _ _ Hm).
  - simpl. destruct (is_hex c); [apply IH |].
    destruct lo; [| done]. unfold at_boundary.
    destruct (sub_from r [TLit repl] 0 s) eqn:Hsub.
    + by rewrite (sub_from_nil_inv _ Hsub).
    + rewrite andb_false_r. destruct s; [by rewrite sub_from_nil in Hsub |].
      by rewrite andb_false_r.
Qed.

Lemma hex_at_sub dollars s :
  is_dollars dollars →
  hex_at dollars (sub_from r [TLit repl] 0 s) = true → hex_at dollars s = true.
Proof.
  assert (Hone : ∀ s, hex_at ["$"%char] (sub_from r [TLit repl] 0 s) = true →
                      hex_at ["$"%char] s = true).
  { intros [|c u]; [by rewrite sub_from_nil |].
    rewrite sub_from_step.
    destruct (match_here r (c :: u)) as [[[|n] cs]|] eqn:Hm.
    - apply match_pos in Hm. lia.
    - rewrite repl_hex_at; [done | by left].
    - rewrite !hex_at_cons. intros H. apply andb_true_iff in H as [-> H].
      by apply hex_tail_sub. }
  intros [-> | ->]; [apply Hone |].
  destruct s as [|c u]; [by rewrite sub_from_nil |].
  rewrite sub_from_step.
  destruct (match_here r (c :: u)) as [[[|n] cs]|] eqn:Hm.
  - apply match_pos in Hm. lia.
  - rewrite repl_hex_at; [done | by right].
  - rewrite !hex_at_cons. intros H. apply andb_true_iff in H as [-> H].
    by apply Hone.
Qed.

(** If every match of a hexadecimal pattern in the text is a match of
    the pass, none is left in the result. *)
Lemma sub_from_nowhere dollars skip s :
  is_dollars dollars →
  all_suffixes (λ u, match_here r u = None → hex_at dollars u = false) s →
  all_suffixes (λ u, hex_at dollars u = false) (sub_from r [TLit repl] skip s).
Proof.
  intros Hd. revert skip. induction s as [|c s IH]; intros skip [Hs Hrest].
  - assert (sub_from r [TLit repl] skip [] = []) as ->.
    { destruct skip; [apply sub_from_nil | done]. }
    split; [| done]. by destruct Hd as [-> | ->].
  - destruct skip; [| by apply IH].
    rewrite sub_from_step.
    destruct (match_here r (c :: s)) as [[[|n] cs]|] eqn:Hm.
    + apply match_pos in Hm. lia.
    + apply repl_nowhere; [done | by apply IH].
    + split; [| by apply IH].
      destruct (hex_at dollars (c :: sub_from r [TLit repl] 0 s)) eqn:Hh; [| done].
      rewrite <- (Hs eq_refl). symmetry. apply hex_at_sub; [done |].
      by rewrite sub_from_step, Hm.
Qed.

End pass.

Lemma all_suffixes_intro (P : list ascii → Prop) s : (∀ u, P u) → all_suffixes P s.
Proof. intros H. induction s; by split. Qed.

Lemma all_suffixes_impl (P Q : list ascii → Prop) s :
  (∀ u, P u → Q u) → all_suffixes P s → all_suffixes Q s.
Proof.
  intros H. induction s as [|c s IH]; intros [Hs Hrest]; split; auto.
Qed.

(** Where the pattern matches nowhere, [re.sub] returns the text. *)
Lemma re_sub_id r t s :
  all_suffixes (λ u, match_here r u = None) s → re_sub r t s = s.
Proof.
  unfold re_sub. induction s as [|c s IH]; intros [Hs Hrest]; cbn [sub_from]; rewrite Hs.
  - done.
  - by rewrite (IH Hrest).
Qed.

(** *** The three last passes *)

Lemma hex_re_nil dollars : is_dollars dollars → match_here (hex_re dollars) [] = None.
Proof. by intros [-> | ->]. Qed.

Lemma hex_re_pos dollars s len cs :
  is_dollars dollars → match_here (hex_re dollars) s = Some (len, cs) → 0 < len.
Proof.
  intros Hd H. apply hex_re_match_inv in H as [H _].
  destruct Hd as [-> | ->]; simpl in H; lia.
Qed.

Lemma hex_tail_dollar lo s :
  hex_tail lo ("$"%char :: s) = match lo with O => true | S _ => false end.
Proof. by destruct lo. Qed.

Lemma hex_repl_tail dollars s len cs lo rest :
  is_dollars dollars →
  match_here (hex_re dollars) s = Some (len, cs) →
  hex_tail lo ((dollars ++ ["*"%char]) ++ rest) = true → hex_tail lo s = true.
Proof.
  intros Hd H Ht. apply hex_re_match_inv in H as [_ H].
  assert (∃ u, s = "$"%char :: u) as [u ->].
  { unfold hex_at in H. destruct Hd as [-> | ->], s as [|c u]; try done;
      simpl in H; destruct (Ascii.eqb_spec "$" c) as [<-|]; try done; by eexists. }
  rewrite hex_tail_dollar.
  by destruct Hd as [-> | ->]; cbn [app] in Ht; rewrite hex_tail_dollar in Ht.
Qed.

Lemma hex_repl_hex_at d dollars rest :
  is_dollars d → is_dollars dollars →
  hex_at dollars ((d ++ ["*"%char]) ++ rest) = false.
Proof. by intros [-> | ->] [-> | ->]. Qed.

Lemma hex_repl_nowhere d dollars rest :
  is_dollars d → is_dollars dollars →
  all_suffixes (λ u, hex_at dollars u = false) rest →
  all_suffixes (λ u, hex_at dollars u = false) ((d ++ ["*"%char]) ++ rest).
Proof. by intros [-> | ->] [-> | ->] H; repeat split. Qed.

Lemma star_tail lo rest : hex_tail lo ("*"%char :: rest) = false.
Proof. by destruct lo. Qed.

Lemma star_nowhere dollars rest :
  is_dollars dollars →
  all_suffixes (λ u, hex_at dollars u = false) rest →
  all_suffixes (λ u, hex_at dollars u = false) ("*"%char :: rest).
Proof. by intros [-> | ->] H; split. Qed.

Lemma digits_pos s len cs : match_here digits_re s = Some (len, cs) → 0 < len.
Proof. intros H. by apply digits_re_match_inv in H as [H _]. Qed.

(** No match of [dollars]-pattern is left after its own pass. *)
Lemma hex_pass_own dollars s :
  is_dollars dollars →
  all_suffixes (λ u, hex_at dollars u = false)
    (re_sub (hex_re dollars) [TLit (dollars ++ ["*"%char])] s).
Proof.
  intros Hd. apply sub_from_nowhere; try done.
  - by apply hex_re_nil.
  - intros ? ? ?. by apply hex_re_pos.
  - by destruct Hd as [-> | ->].
  - intros ? ? ? ? ?. by apply hex_repl_tail.
  - intros ? ?. by apply hex_repl_hex_at.
  - intros ? ?. by apply hex_repl_nowhere.
  - apply all_suffixes_intro. intros u Hu.
    pose proof (hex_re_match dollars u) as Hm.
    destruct (hex_at dollars u); [| done]. rewrite Hu in Hm. by destruct Hm.
Qed.

(** A pass of one hexadecimal pattern creates no match of the other. *)
Lemma hex_pass_other d dollars s :
  is_dollars d → is_dollars dollars →
  all_suffixes (λ u, hex_at dollars u = false) s →
  all_suffixes (λ u, hex_at dollars u = false)
    (re_sub (hex_re d) [TLit (d ++ ["*"%char])] s).
Proof.
  intros Hd Hdollars Hs. apply sub_from_nowhere; try done.
  - by apply hex_re_nil.
  - intros ? ? ?. by apply hex_re_pos.
  - by destruct Hd as [-> | ->].
  - intros ? ? ? ? ?. by apply hex_repl_tail.
  - intros ? ?. by apply hex_repl_hex_at.
  - intros ? ?. by apply hex_repl_nowhere.
  - eapply all_suffixes_impl; [| exact Hs]. by intros u Hu _.
Qed.

(** Nor does the digit pass. *)
Lemma digits_pass_hex dollars s :
  is_dollars dollars →
  all_suffixes (λ u, hex_at dollars u = false) s →
  all_suffixes (λ u, hex_at dollars u = false) (digits s).
Proof.
  intros Hd Hs. unfold digits, re_sub. change (str "*") with ["*"%char].
  apply sub_from_nowhere; try done.
  - apply digits_pos.
  - intros ? ? ? lo rest _ Ht. cbn [app] in Ht. by rewrite star_tail in Ht.
  - by intros ? ? [-> | ->].
  - intros ? ?. by apply star_nowhere.
  - eapply all_suffixes_impl; [| exact Hs]. by intros u Hu _.
Qed.

(** The digit pass leaves no digit. *)
Lemma digits_digit_free s : digit_free (digits s).
Proof.
  unfold digits, re_sub, digit_free. change (str "*") with ["*"%char].
  generalize 0 as skip. induction s as [|c s IH]; intros skip.
  - destruct skip; [| done]. by rewrite sub_from_nil.
  - destruct skip; [| apply IH].
    rewrite (sub_from_step _ _ digits_pos).
    destruct (match_here digits_re (c :: s)) as [[[|n] cs]|] eqn:Hm.
    + apply digits_pos in Hm. lia.
    + constructor; [done | apply IH].
    + constructor; [| apply IH].
      destruct (is_digit c) eqn:Hc; [| done].
      destruct (digits_re_match c s Hc) as [y Hy]. congruence.
Qed.

Lemma digit_free_suffixes s : digit_free s → all_suffixes digit_free s.
Proof.
  induction s as [|c s IH]; intros H; split; try done.
  apply IH. by inversion H.
Qed.

Lemma digits_re_no_match s : digit_free s → match_here digits_re s = None.
Proof.
  intros Hs. destruct (match_here digits_re s) as [[len cs]|] eqn:Hm; [| done].
  apply digits_re_match_inv in Hm as (_ & c & s' & -> & Hc).
  inversion Hs; congruence.
Qed.

Lemma seq_inv (R : Type) r1 r2 s cs (k : list ascii → caps → option R) x :
  rmatch R (Seq r1 r2) s cs k = Some x →
  ∃ n cs', rmatch R r2 (drop n s) cs' k = Some x.
Proof. cbn [rmatch]. intros H. apply rmatch_inv in H as (n & cs' & _ & H). eauto. Qed.

(** The native-library pattern needs a digit. *)
Lemma native_lib_re_no_match s : digit_free s → match_here native_lib_re s = None.
Proof.
  intros Hs. destruct (match_here native_lib_re s) as [[len cs]|] eqn:Hm; [| done].
  exfalso. unfold match_here, native_lib_re in Hm.
  do 6 (apply seq_inv in Hm as (? & ? & Hm); rewrite ?drop_drop in Hm).
  cbn [rmatch] in Hm. apply many_inv in Hm as (n & Hlo & Hn & Hall & _).
  match type of Hall with Forall _ (take n (drop ?m s)) =>
    assert (Hfree : digit_free (drop m s)) by (by apply Forall_drop);
    revert Hn Hall Hfree; generalize (drop m s)
  end.
  intros [|c u] Hn Hall Hfree; [simpl in Hn; lia |].
  destruct n; [lia |]. simpl in Hall.
  inversion Hall; inversion Hfree; congruence.
Qed.

(** The result of the last three passes is left alone by the last four. *)
Lemma tail_passes_stable s :
  let n := digits (hex1 (hex2 s)) in
  native_lib n = n ∧ hex2 n = n ∧ hex1 n = n ∧ digits n = n.
Proof.
  intros n.
  assert (H1 : is_dollars ["$"%char]) by by left.
  assert (H2 : is_dollars ["$"%char; "$"%char]) by by right.
  assert (Hfree : digit_free n) by apply digits_digit_free.
  assert (Hno2 : all_suffixes (λ u, hex_at ["$"%char; "$"%char] u = false) n).
  { apply digits_pass_hex; [done |].
    apply (hex_pass_other ["$"%char] _ _ H1 H2).
    apply (hex_pass_own _ s H2). }
  assert (Hno1 : all_suffixes (λ u, hex_at ["$"%char] u = false) n).
  { apply digits_pass_hex; [done |]. apply (hex_pass_own _ (hex2 s) H1). }
  split; [| split; [| split]].
  - apply re_sub_id. eapply all_suffixes_impl; [| by apply digit_free_suffixes].
    apply native_lib_re_no_match.
  - apply re_sub_id. eapply all_suffixes_impl; [| exact Hno2].
    intros u Hu. pose proof (hex_re_match ["$"%char; "$"%char] u) as Hm.
    by rewrite Hu in Hm.
  - apply re_sub_id. eapply all_suffixes_impl; [| exact Hno1].
    intros u Hu. pose proof (hex_re_match ["$"%char] u) as Hm.
    by rewrite Hu in Hm.
  - apply re_sub_id. eapply all_suffixes_impl; [| by apply digit_free_suffixes].
    apply digits_re_no_match.
Qed.

(** C8. The snappy frame of scenario B normalizes to the collapsed name. *)
Theorem snappy_frame_normalized :
  normalize_stack_trace (str "snappy-1.1.4-abc123-1-de45-f-6789-libsnappyjava.so")
  = str "snappy-*-libsnappyjava.so".
Proof. vm_compute. reflexivity. Qed.

(** Scenario C: the double-dollar identifier collapses before the digit pass. *)
Example scenario_C :
  normalize_stack_trace (str "com.foo.Bar$$4e5e6.run") = str "com.foo.Bar$$*.run".
Proof. vm_compute. reflexivity. Qed.

(** C3 fails as stated: one normalization strips one trailing annotation,
    a second one strips the next. *)
Lemma normalize_not_idempotent :
  normalize_stack_trace (str "a [j] [j]") = str "a [j]" ∧
  normalize_stack_trace (normalize_stack_trace (str "a [j] [j]")) = str "a" ∧
  normalize_stack_trace (normalize_stack_trace (str "a [j] [j]"))
    ≠ normalize_stack_trace (str "a [j] [j]").
Proof. by vm_compute. Qed.

(** Normalizing a normalized frame changes nothing when the cleaning step
    and the snappy substitution leave the normalized frame as it is. *)
Lemma normalize_frame_stable (frame : list ascii) :
  clean (normalize_frame frame) = normalize_frame frame →
  snappy (normalize_frame frame) = normalize_frame frame →
  normalize_frame (normalize_frame frame) = normalize_frame frame.
Proof.
  intros Hclean Hsnappy.
  unfold normalize_frame at 1. rewrite Hclean, Hsnappy.
  unfold normalize_frame.
  destruct (tail_passes_stable (native_lib (snappy (clean frame))))
    as (Hn & H2 & H1 & Hd).
  by rewrite Hn, H2, H1, Hd.
Qed.

(** *** Frames and the separator *)

Lemma split_Forall sep s : Forall (λ p, sep ∉ p) (split sep s).
Proof.
  induction s as [|c s IH]; simpl.
  - repeat constructor. apply not_elem_of_nil.
  - destruct (Ascii.eqb_spec c sep) as [->|Hne].
    + constructor; [apply not_elem_of_nil | done].
    + destruct (split sep s) as [|h t]; inversion IH; subst.
      * repeat constructor. apply not_elem_of_cons. split; [done | apply not_elem_of_nil].
      * constructor; [| done]. apply not_elem_of_cons. by split.
Qed.

Lemma split_app_sep sep p s : sep ∉ p → split sep (p ++ sep :: s) = p :: split sep s.
Proof.
  induction p as [|c p IH]; intros Hp; simpl.
  - by rewrite Ascii.eqb_refl.
  - apply not_elem_of_cons in Hp as [Hc Hp].
    destruct (Ascii.eqb_spec c sep) as [->|_]; [done |]. by rewrite (IH Hp).
Qed.

Lemma split_absent_elem sep p : sep ∉ p → split sep p = [p].
Proof.
  induction p as [|c p IH]; intros Hp; simpl; [done |].
  apply not_elem_of_cons in Hp as [Hc Hp].
  destruct (Ascii.eqb_spec c sep) as [->|_]; [done |]. by rewrite (IH Hp).
Qed.

Lemma split_join sep parts :
  parts ≠ [] → Forall (λ p, sep ∉ p) parts → split sep (join sep parts) = parts.
Proof.
  induction parts as [|p parts IH]; [done |]. intros _ Hall.
  inversion Hall as [|? ? Hp Hrest]; subst.
  destruct parts as [|q parts]; simpl.
  - by apply split_absent_elem.
  - rewrite split_app_sep by done. f_equal. by apply IH.
Qed.

(** *** Normalization adds no separator *)
Section keeps.
Variable P : ascii → Prop.

#[local] Abbreviation caps_ok := (caps_in P).

Lemma rmatch_caps (R : Type) r s cs (k : list ascii → caps → option R) x :
  Forall P s → caps_ok cs →
  rmatch R r s cs k = Some x →
  ∃ n cs', caps_ok cs' ∧ k (drop n s) cs' = Some x.
Proof.
  revert R s cs k x.
  induction r as [l|p|p lo|r1 IH1 r2 IH2|r1 IH1 r2 IH2|r1 IH1|i r1 IH1| |r1 IH1];
    intros R s cs k x Hs Hcs; cbn [rmatch].
  - destruct (drop_prefix l s) as [s'|] eqn:Hd; [| done].
    apply drop_prefix_length in Hd as [-> _]. eauto.
  - destruct s as [|c s]; [done |]. destruct (p c); [| done].
    intros H. by exists 1, cs.
  - intros H. apply many_inv in H as (n & _ & _ & _ & H). eauto.
  - intros H. apply IH1 in H as (n1 & cs1 & Hcs1 & H); [| done | done].
    apply IH2 in H as (n2 & cs2 & Hcs2 & H); [| by apply Forall_drop | done].
    rewrite drop_drop in H. eauto.
  - destruct (rmatch R r1 s cs k) as [y|] eqn:H1.
    + intros [= ->]. by eapply IH1.
    + by apply IH2.
  - destruct (rmatch R r1 s cs k) as [y|] eqn:H1.
    + intros [= ->]. by eapply IH1.
    + intros H. by exists 0, cs.
  - intros H. apply IH1 in H as (n & cs' & Hcs' & H); [| done | done].
    exists n. eexists. split; [| exact H].
    constructor; [| done]. simpl. by apply Forall_take.
  - destruct s as [|c [|c' s]]; [| |done].
    + intros H. by exists 0, cs.
    + destruct (Ascii.eqb c "010"); [| done]. intros H. by exists 0, cs.
  - destruct (rmatch caps r1 s cs _) as [cs'|] eqn:H1; [| done].
    apply IH1 in H1 as (n & cs'' & Hcs'' & [= <-]); [| done | done].
    intros H. by exists 0, cs''.
Qed.

Lemma group_in i cs : caps_ok cs → Forall P (group i cs).
Proof.
  intros Hcs. unfold group.
  destruct (List.find _ cs) as [e|] eqn:Hf; [| done].
  apply find_some in Hf as [Hin _].
  unfold caps_in in Hcs. rewrite Forall_forall in Hcs.
  apply Hcs. by apply list_elem_of_In.
Qed.

Lemma expand_in t cs :
  Forall (λ it, match it with TLit l => Forall P l | TGrp _ => True end) t →
  caps_ok cs → Forall P (expand t cs).
Proof.
  intros Ht Hcs. unfold expand.
  induction Ht as [|[l|i] t Hit _ IH]; simpl; [done | |];
    apply Forall_app; split; try done.
  by apply group_in.
Qed.

Lemma re_sub_in r t s :
  Forall (λ it, match it with TLit l => Forall P l | TGrp _ => True end) t →
  Forall P s → Forall P (re_sub r t s).
Proof.
  intros Ht. unfold re_sub. generalize 0 as skip.
  induction s as [|c s IH]; intros skip Hs.
  - destruct skip; [| done]. cbn [sub_from].
    destruct (match_here r []) as [[len cs]|] eqn:Hm; [| done].
    rewrite app_nil_r. apply expand_in; [done |].
    unfold match_here in Hm.
    apply rmatch_caps in Hm as (n & cs' & Hcs' & [= _ <-]);
      [done | done | by constructor].
  - inversion Hs as [|? ? Hc Hs']; subst.
    destruct skip; [| by apply IH]. cbn [sub_from].
    destruct (match_here r (c :: s)) as [[len cs]|] eqn:Hm.
    + apply Forall_app. split.
      * apply expand_in; [done |]. unfold match_here in Hm.
        apply rmatch_caps in Hm as (n & cs' & Hcs' & [= _ <-]);
      [done | done | by constructor].
      * destruct len; [constructor; [done |] |]; by apply IH.
    + constructor; [done | by apply IH].
Qed.

Lemma lstrip_in s : Forall P s → Forall P (lstrip s).
Proof.
  induction 1 as [|c s Hc Hs IH]; simpl; [done |].
  destruct (is_space c); [done | by constructor].
Qed.

Lemma rstrip_in s : Forall P s → Forall P (rstrip s).
Proof.
  induction 1 as [|c s Hc Hs IH]; simpl; [done |].
  destruct (rstrip s); [destruct (is_space c); by repeat constructor | by constructor].
Qed.

Hypothesis P_star : P "*".
Hypothesis P_dollar : P "$".
Hypothesis P_dash : P "-".
Hypothesis P_dot : P ".".
Hypothesis P_lower : ∀ c, is_lower c = true → P c.

Lemma repl_char_in c : repl_char c = true → P c.
Proof.
  unfold repl_char, is_char. intros H.
  repeat (apply orb_true_iff in H as [H | H]);
    try (apply Ascii.eqb_eq in H as <-; assumption).
  by apply P_lower.
Qed.

Lemma literal_in l :
  forallb repl_char l = true →
  Forall (λ it, match it with TLit l => Forall P l | TGrp _ => True end) [TLit l].
Proof.
  intros H. constructor; [| constructor].
  apply Forall_forall. intros c Hc. apply repl_char_in.
  rewrite forallb_forall in H. apply H. by apply list_elem_of_In.
Qed.

Lemma normalize_frame_in frame : Forall P frame → Forall P (normalize_frame frame).
Proof.
  intros H. unfold normalize_frame, digits, hex1, hex2.
  do 3 (apply re_sub_in; [by apply literal_in |]).
  unfold native_lib. apply re_sub_in.
  { constructor; [done |]. constructor; [| by repeat constructor].
    apply Forall_forall. intros c Hc. apply repl_char_in.
    by repeat (apply elem_of_cons in Hc as [-> | Hc]; [done |]); inversion Hc. }
  assert (Hclean : Forall P (clean frame)).
  { unfold clean. apply rstrip_in, lstrip_in.
    by do 2 (apply re_sub_in; [constructor |]). }
  unfold snappy. destruct (contains (str "libsnappyjava.so") (clean frame)); [| done].
  apply re_sub_in; [by apply literal_in | done].
Qed.
End keeps.

(** C3, amended. Normalizing a normalized stack trace changes nothing,
    provided each of its normalized frames is one that the cleaning step
    (trailing annotation, trailing underscores, surrounding whitespace) and
    the snappy substitution leave as it is. *)
Theorem normalize_idempotent_on_clean_frames (stack_trace : list ascii) :
  Forall (λ frame,
            clean (normalize_frame frame) = normalize_frame frame ∧
            snappy (normalize_frame frame) = normalize_frame frame)
    (split ";" stack_trace) →
  normalize_stack_trace (normalize_stack_trace stack_trace)
  = normalize_stack_trace stack_trace.
Proof.
  intros Hframes. unfold normalize_stack_trace.
  rewrite split_join.
  - f_equal. rewrite <- list_fmap_compose.
    apply Forall_fmap_ext_1. eapply Forall_impl; [exact Hframes |].
    intros frame [Hc Hs]. by apply normalize_frame_stable.
  - pose proof (split_not_nil ";" stack_trace). by destruct (split ";" stack_trace).
  - apply Forall_fmap. eapply Forall_impl; [apply split_Forall |].
    intros frame Hframe. simpl.
    assert (H : Forall (λ c, c ≠ ";"%char) (normalize_frame frame)).
    { apply normalize_frame_in; try done.
      - by intros c Hc ->.
      - apply Forall_forall. by intros c Hc ->. }
    rewrite Forall_forall in H. intros Hin. by apply (H _ Hin).
Qed.

Lemma normalize_idempotent_on_clean_frames_witness :
  normalize_stack_trace (normalize_stack_trace (str "main;com.foo.Bar$$4e5e6.run [j]"))
  = normalize_stack_trace (str "main;com.foo.Bar$$4e5e6.run [j]").
Proof.
  apply (normalize_idempotent_on_clean_frames (str "main;com.foo.Bar$$4e5e6.run [j]")).
  change (split ";" (str "main;com.foo.Bar$$4e5e6.run [j]"))
    with [str "main"; str "com.foo.Bar$$4e5e6.run [j]"].
  constructor; [split; vm_compute; reflexivity |].
  constructor; [split; vm_compute; reflexivity |].
  constructor.
Defined.

End NormalizeProofs.

(** * Properties of the parser *)
Module ParserProofs.
Import PyStr Re Exn FlameGraphParser Props.

Lemma table_sum_empty : table_sum ∅ = 0%Z.
Proof. unfold table_sum. by rewrite map_fold_empty. Qed.

Lemma table_sum_insert_fresh (k : list ascii) (v : Z) (m : gmap (list ascii) Z) :
  m !! k = None → table_sum (<[k := v]> m) = (v + table_sum m)%Z.
Proof.
  intros Hk. unfold table_sum.
  rewrite map_fold_insert_L; [done | | done].
  intros; lia.
Qed.

Lemma table_sum_delete (k : list ascii) (v : Z) (m : gmap (list ascii) Z) :
  m !! k = Some v → table_sum m = (v + table_sum (delete k m))%Z.
Proof.
  intros Hk. unfold table_sum.
  rewrite (map_fold_delete_L _ _ k v m); [done | | done].
  intros; lia.
Qed.

Lemma table_sum_add_count (k : list ascii) (count : Z) (m : gmap (list ascii) Z) :
  table_sum (add_count k count m) = (table_sum m + count)%Z.
Proof.
  unfold add_count. destruct (m !! k) as [v|] eqn:Hk; simpl.
  - rewrite <- insert_delete_eq.
    rewrite table_sum_insert_fresh by apply lookup_delete_eq.
    rewrite (table_sum_delete k v m Hk). lia.
  - rewrite table_sum_insert_fresh by done. lia.
Qed.

Lemma parse_line_effect line st :
  ∃ st', parse_line line st = Ok st' ∧ line_effect line st st'.
Proof.
  unfold parse_line. destruct (strip line); [eexists; split; [done | constructor] |].
  unfold rsplit1. destruct (rcut " " line) as [[p0 p1]|] eqn:Hcut;
    [| eexists; split; [done | constructor]].
  unfold try_body, py_int.
  destruct (int_literal (strip p1)) as [n|] eqn:Hint; simpl.
  - eexists; split; [done |]. by eapply line_counted.
  - eexists; split; [done | constructor].
Qed.

Lemma parse_lines_total lines st : ∃ st', parse_lines lines st = Ok st'.
Proof.
  revert st. induction lines as [|line rest IH]; intros st; simpl; [by eexists |].
  destruct (parse_line_effect line st) as (st1 & -> & _). simpl. apply IH.
Qed.

Lemma parse_lines_sum lines st st' :
  parse_lines lines st = Ok st' →
  table_sum (fst st) = snd st → table_sum (fst st') = snd st'.
Proof.
  revert st. induction lines as [|line rest IH]; intros st; simpl.
  - intros [= <-]; done.
  - destruct (parse_line_effect line st) as (st1 & -> & Heff). simpl.
    intros Hrest Hinv. apply (IH _ Hrest).
    destruct Heff as [|p0 p1 count _ _]; [done |]. simpl.
    rewrite table_sum_add_count. lia.
Qed.

Lemma rcut_None sep s : sep ∉ s → rcut sep s = None.
Proof.
  induction s as [|c s IH]; [done |].
  intros Hnot. apply not_elem_of_cons in Hnot as [Hc Hs]. simpl.
  rewrite (IH Hs). destruct (Ascii.eqb_spec c sep); congruence.
Qed.

Lemma rcut_app sep a b : sep ∉ b → rcut sep (a ++ sep :: b) = Some (a, b).
Proof.
  intros Hb. induction a as [|c a IH]; simpl.
  - by rewrite (rcut_None _ _ Hb), Ascii.eqb_refl.
  - by rewrite IH.
Qed.


Lemma parse_line_on_cut (line parts0 parts1 : list ascii) (st : state) :
  strip line ≠ [] →
  rcut " " line = Some (parts0, parts1) →
  parse_line line st =
    Ok (match int_literal (strip parts1) with
        | Some count =>
            (add_count (normalize_stack_trace (strip parts0)) count (fst st),
             (snd st + count)%Z)
        | None => st
        end).
Proof.
  intros Hblank Hcut. unfold parse_line, rsplit1. rewrite Hcut.
  destruct (strip line); [done |].
  unfold try_body, py_int. by destruct (int_literal (strip parts1)).
Qed.




(** C5 fails as stated: a tab between stack and count is no split point, so
    the line ["a;b<TAB>5"] is not parsed as a line with count 5 but skipped. *)
Lemma tab_separated_line_is_skipped :
  parse_file (str "a;b" ++ ["009"%char] ++ str "5") = Ok (∅, 0%Z).
Proof. vm_compute. reflexivity. Qed.

(** C5, amended. A non-blank line is split at its last space character
    (U+0020) into the stack text before it and the count text after it, and
    both are stripped of surrounding whitespace before use; a line without a
    space character is skipped. *)
Theorem line_split_at_last_space (line : list ascii) (st : state) :
  strip line ≠ [] →
  (∀ stack_text count_text,
     line = stack_text ++ " "%char :: count_text →
     " "%char ∉ count_text →
     parse_line line st =
       Ok (match int_literal (strip count_text) with
           | Some count =>
               (add_count (normalize_stack_trace (strip stack_text)) count (fst st),
                (snd st + count)%Z)
           | None => st
           end)) ∧
  (" "%char ∉ line → parse_line line st = Ok st).
Proof.
  intros Hblank. split.
  - intros a b -> Hb. apply parse_line_on_cut; [done |].
    by apply rcut_app.
  - intros Hnone. unfold parse_line, rsplit1. rewrite (rcut_None _ _ Hnone).
    by destruct (strip line).
Qed.

Lemma line_split_at_last_space_witness :
  parse_line (str "a b  5") (∅, 0%Z) = Ok ({[ str "a b" := 5%Z ]}, 5%Z) ∧
  parse_line (str "a;b" ++ ["009"%char] ++ str "5") (∅, 0%Z) = Ok (∅, 0%Z).
Proof.
  assert (Hne1 : strip (str "a b  5") ≠ []) by discriminate.
  assert (Hne2 : strip (str "a;b" ++ ["009"%char] ++ str "5") ≠ []) by discriminate.
  split.
  - etrans.
    + apply (proj1 (line_split_at_last_space _ (∅, 0%Z) Hne1) (str "a b ") (str "5"));
        [reflexivity | by apply not_elem_of_cons; split; [discriminate | apply not_elem_of_nil]].
    + vm_compute. reflexivity.
  - apply (proj2 (line_split_at_last_space _ (∅, 0%Z) Hne2)).
    repeat (apply not_elem_of_cons; split; [discriminate |]). apply not_elem_of_nil.
Defined.

(** Scenario D: a line without a space is skipped and the parse succeeds. *)
Example scenario_D : parse_file (str "onlystacknocount") = Ok (∅, 0%Z).
Proof. vm_compute. reflexivity. Qed.


End ParserProofs.

(** * Properties of the diff engine *)
Module DifferProofs.
Import PyStr Exn FlameGraphDiffer Props.

Lemma percent_of_ok (count total : Z) :
  ∃ q, percent_of count total = Ok q ∧ (total = 0%Z → q = 0%Q).
Proof.
  unfold percent_of, py_truediv.
  destruct (Z.ltb_spec 0 total) as [Hpos|Hle].
  - destruct (Z.eqb_spec total 0) as [->|Hne]; [lia |].
    simpl. eexists; split; [done | lia].
  - by eexists.
Qed.

Lemma make_stack_info_ok old_stacks new_stacks old_total new_total k :
  ∃ info,
    make_stack_info old_stacks new_stacks old_total new_total k = Ok info ∧
    stack info = k ∧
    counts_of old_stacks new_stacks info ∧
    zero_percents old_total new_total info.
Proof.
  unfold make_stack_info.
  destruct (percent_of_ok (default 0%Z (old_stacks !! k)) old_total) as (po & -> & Hpo).
  destruct (percent_of_ok (default 0%Z (new_stacks !! k)) new_total) as (pn & -> & Hpn).
  simpl. eexists; split; [done |]. repeat split; simpl.
  - intros H. by rewrite (Hpo H).
  - intros H. by rewrite (Hpn H).
Qed.

(** [classify] appends the entry to exactly one list, the one of its class. *)
Lemma classify_categories info r :
  categories (classify info r) ≡ₚ info :: categories r.
Proof.
  unfold classify, categories.
  repeat case_match; simpl; rewrite ?Permutation_middle; solve_Permutation.
Qed.

Lemma classify_summary info r : summary (classify info r) = summary r.
Proof. unfold classify. by repeat case_match. Qed.

Lemma classify_classified old_stacks new_stacks old_total new_total info r :
  counts_of old_stacks new_stacks info →
  zero_percents old_total new_total info →
  classified old_stacks new_stacks old_total new_total r →
  classified old_stacks new_stacks old_total new_total (classify info r).
Proof.
  intros Hc Hz [H1 H2 H3 H4 H5 H6 H7].
  assert (Hd : diff_count info = (new_count info - old_count info)%Z) by apply Hc.
  split.
  - rewrite classify_categories. by constructor.
  - rewrite classify_categories. by constructor.
  - unfold classify. repeat case_match; simpl; try done.
    apply Forall_app; split; [done |]. repeat constructor; lia.
  - unfold classify. repeat case_match; simpl; try done.
    apply Forall_app; split; [done |]. repeat constructor; lia.
  - unfold classify. repeat case_match; simpl; try done.
    apply Forall_app; split; [done |].
    repeat constructor; unfold is_added, is_removed; lia.
  - unfold classify. repeat case_match; simpl; try done.
    apply Forall_app; split; [done |].
    repeat constructor; unfold is_added, is_removed; lia.
  - unfold classify. repeat case_match; simpl; try done.
    apply Forall_app; split; [done |].
    repeat constructor; unfold is_added, is_removed; lia.
Qed.

Lemma classify_all_ok old_stacks new_stacks old_total new_total ks r :
  classified old_stacks new_stacks old_total new_total r →
  ∃ r',
    classify_all old_stacks new_stacks old_total new_total ks r = Ok r' ∧
    classified old_stacks new_stacks old_total new_total r' ∧
    stack <$> categories r' ≡ₚ (stack <$> categories r) ++ ks ∧
    summary r' = summary r.
Proof.
  revert r. induction ks as [|k ks IH]; intros r Hr; simpl.
  - exists r. by rewrite app_nil_r.
  - destruct (make_stack_info_ok old_stacks new_stacks old_total new_total k)
      as (info & -> & Hk & Hc & Hz). simpl.
    destruct (IH (classify info r)) as (r' & Hrun & Hcl & Hperm & Hsum).
    { by apply classify_classified. }
    exists r'. split; [done |]. split; [done |]. split.
    + rewrite Hperm, classify_categories, fmap_cons, Hk. solve_Permutation.
    + by rewrite Hsum, classify_summary.
Qed.

(** *** The sort *)
Section sort_desc.
Context {A : Type} (key : A → Q).

Lemma insert_desc_perm x l : insert_desc key x l ≡ₚ x :: l.
Proof.
  induction l as [|y l IH]; simpl; [done |].
  destruct (key_lt (key x) (key y)); [| done].
  by rewrite IH, Permutation_swap.
Qed.

Lemma sort_desc_perm l : sort_desc key l ≡ₚ l.
Proof.
  induction l as [|x l IH]; simpl; [done |].
  by rewrite insert_desc_perm, IH.
Qed.

Let ge_key (a b : A) : Prop := (key b <= key a)%Q.

Lemma key_lt_true a b : key_lt (key a) (key b) = true → ge_key b a.
Proof.
  unfold key_lt, ge_key. intros H. apply negb_true_iff in H.
  apply Qlt_le_weak, Qnot_le_lt. intros Hle.
  apply Qle_bool_iff in Hle. congruence.
Qed.

Lemma key_lt_false a b : key_lt (key a) (key b) = false → ge_key a b.
Proof.
  unfold key_lt, ge_key. intros H. apply negb_false_iff in H.
  by apply Qle_bool_iff.
Qed.

Lemma insert_desc_HdRel y x l :
  ge_key y x → HdRel ge_key y l → HdRel ge_key y (insert_desc key x l).
Proof.
  intros Hyx Hyl. destruct l as [|z l]; simpl; [by constructor |].
  destruct (key_lt (key x) (key z)); constructor; [| done].
  by inversion Hyl.
Qed.

Lemma insert_desc_Sorted x l :
  Sorted ge_key l → Sorted ge_key (insert_desc key x l).
Proof.
  induction 1 as [|y l Hl IH Hhd]; simpl; [by repeat constructor |].
  destruct (key_lt (key x) (key y)) eqn:Hlt.
  - constructor; [done |]. apply insert_desc_HdRel; [| done].
    by apply key_lt_true.
  - constructor; [by constructor |]. constructor. by apply key_lt_false.
Qed.

Lemma sort_desc_Sorted l : Sorted (λ a b, (key b <= key a)%Q) (sort_desc key l).
Proof.
  induction l as [|x l IH]; simpl; [constructor |].
  by apply insert_desc_Sorted.
Qed.
End sort_desc.

Lemma sort_categories_perm r : categories (sort_categories r) ≡ₚ categories r.
Proof.
  unfold categories, sort_categories; simpl.
  by rewrite !sort_desc_perm.
Qed.

Lemma sort_categories_classified old_stacks new_stacks old_total new_total r :
  classified old_stacks new_stacks old_total new_total r →
  classified old_stacks new_stacks old_total new_total (sort_categories r).
Proof.
  intros [H1 H2 H3 H4 H5 H6 H7]. split.
  - by rewrite sort_categories_perm.
  - by rewrite sort_categories_perm.
  - simpl. by rewrite sort_desc_perm.
  - simpl. by rewrite sort_desc_perm.
  - simpl. by rewrite sort_desc_perm.
  - simpl. by rewrite sort_desc_perm.
  - done.
Qed.

Lemma sort_categories_descending r :
  descending (added (sort_categories r)) ∧
  descending (removed (sort_categories r)) ∧
  descending (increased (sort_categories r)) ∧
  descending (decreased (sort_categories r)).
Proof. repeat split; apply (sort_desc_Sorted sort_key). Qed.

(** *** [calculate_diff] for any iteration order of the stacks *)
Lemma classified_nil old_stacks new_stacks old_total new_total s :
  classified old_stacks new_stacks old_total new_total
    {| added := []; removed := []; increased := []; decreased := [];
       unchanged := []; summary := s |}.
Proof. by split. Qed.

Lemma calculate_diff_in_ok ks old_stacks new_stacks old_total new_total :
  ∃ r,
    calculate_diff_in ks old_stacks new_stacks old_total new_total = Ok r ∧
    classified old_stacks new_stacks old_total new_total r ∧
    stack <$> categories r ≡ₚ ks ∧
    descending (added r) ∧ descending (removed r) ∧
    descending (increased r) ∧ descending (decreased r) ∧
    (old_total = 0%Z → total_change_percent (summary r) = 0%Q).
Proof.
  unfold calculate_diff_in.
  assert (∃ p,
    (if (0 <? old_total)%Z
     then q ← py_truediv (new_total - old_total) old_total; Ok (q * 100)%Q
     else Ok 0%Q) = Ok p ∧ (old_total = 0%Z → p = 0%Q)) as (p & -> & Hp).
  { unfold py_truediv. destruct (Z.ltb_spec 0 old_total).
    - destruct (Z.eqb_spec old_total 0); [lia |]. simpl. eexists; split; [done | lia].
    - by eexists. }
  simpl.
  match goal with |- context [classify_all _ _ _ _ _ ?r0] =>
    destruct (classify_all_ok old_stacks new_stacks old_total new_total ks r0)
      as (r & -> & Hcl & Hperm & Hsum)
  end.
  { apply classified_nil. }
  simpl. eexists; split; [done |].
  split; [by apply sort_categories_classified |].
  split; [by rewrite sort_categories_perm, Hperm |].
  destruct (sort_categories_descending r) as (? & ? & ? & ?).
  repeat (split; [done |]).
  intros Hzero. change (summary (sort_categories r)) with (summary r).
  rewrite Hsum. simpl. by apply Hp.
Qed.

(** Scenario A: parsing the two files and diffing them. *)
Example scenario_A :
  (old ← FlameGraphParser.parse_file
           (str "a;b 100" ++ ["010"%char] ++ str "a;c 50" ++ ["010"%char]);
   new ← FlameGraphParser.parse_file
           (str "a;b 150" ++ ["010"%char] ++ str "a;d 50" ++ ["010"%char]);
   r ← calculate_diff (fst old) (fst new) (snd old) (snd new);
   Ok (snd old, snd new, stack <$> added r, stack <$> removed r,
       (stack <$> increased r, diff_count <$> increased r),
       (decreased r, unchanged r)))
  = Ok (150%Z, 200%Z, [str "a;d"], [str "a;c"], ([str "a;b"], [50%Z]), ([], [])).
Proof. vm_compute. reflexivity. Qed.





End DifferProofs.

(** * Properties of the correlation report *)
Module DebugProofs.
Import PyStr Exn FlameGraphDiffer DebugStacks Props PyStrFacts.

Lemma split_absent sep s : contains [sep] s = false → split sep s = [s].
Proof.
  induction s as [|c s IH]; simpl; [done |].
  rewrite (Ascii.eqb_sym c sep).
  destruct (Ascii.eqb sep c); [done |].
  intros H. by rewrite (IH H).
Qed.

(** The conditional of the source computes the leaf identifier. *)
Lemma last_method_leaf stack : last_method stack = Some (leaf_identifier stack).
Proof.
  unfold last_method, leaf_identifier.
  destruct (last (split ";" stack)) as [leaf|] eqn:Hlast.
  - change (str "/") with ["/"%char]. simpl.
    destruct (contains ["/"%char] leaf) eqn:Hc; [done |].
    by rewrite (split_absent _ _ Hc).
  - apply last_None in Hlast. by apply split_not_nil in Hlast.
Qed.

Lemma methods_of_spec items m :
  m ∈ methods_of items ↔ ∃ i, i ∈ items ∧ m = leaf_identifier (stack i).
Proof.
  unfold methods_of.
  assert (Hgen : ∀ acc : gset (list ascii),
    m ∈ foldl (λ acc item,
                 match last_method (stack item) with
                 | Some m => acc ∪ {[m]}
                 | None => acc
                 end) acc items
    ↔ m ∈ acc ∨ ∃ i, i ∈ items ∧ m = leaf_identifier (stack i)).
  { induction items as [|i items IH]; intros acc; simpl.
    - split; [by left | intros [H | (i & Hi & _)]; [done | by inversion Hi]].
    - rewrite IH, last_method_leaf, elem_of_union, elem_of_singleton. split.
      + intros [[H | ->] | (j & Hj & ->)]; [by left | |].
        * right. exists i. split; [left | done].
        * right. exists j. split; [by right | done].
      + intros [H | (j & Hj & ->)]; [by left; left |].
        apply elem_of_cons in Hj as [-> | Hj]; [by left; right |].
        right. by exists j. }
  rewrite Hgen. split; [intros [H | H]; [set_solver | done] | by right].
Qed.

Lemma filter_head_find {A : Type} (f : A → bool) l a rest :
  List.filter f l = a :: rest → List.find f l = Some a.
Proof.
  induction l as [|x l IH]; simpl; [done |].
  destruct (f x); [by intros [= ->] | done].
Qed.

Lemma build_examples_spec methods r :
  length (build_examples methods r) ≤ length methods ∧
  Forall (λ e, method e ∈ methods ∧ first_pair r e) (build_examples methods r).
Proof.
  induction methods as [|m methods [IHlen IH]]; simpl; [by split |].
  assert (Hrest : Forall (λ e, method e ∈ m :: methods ∧ first_pair r e)
                    (build_examples methods r)).
  { eapply Forall_impl; [exact IH |]. intros e [He Hp]. split; [by right | done]. }
  unfold examples_of.
  destruct (List.filter _ (added r)) as [|a ra] eqn:Ha; [split; [lia | done] |].
  destruct (List.filter _ (removed r)) as [|b rb] eqn:Hb; [split; [lia | done] |].
  split; [simpl; lia |]. constructor; [| done]. simpl. split; [left |].
  exists a, b. simpl.
  by rewrite (filter_head_find _ _ _ _ Ha), (filter_head_find _ _ _ _ Hb).
Qed.

Lemma elem_of_take_elements (X : gset (list ascii)) n m :
  m ∈ take n (elements X) → m ∈ X.
Proof.
  intros H. apply elem_of_elements.
  rewrite <- (take_drop n (elements X)). apply elem_of_app. by left.
Qed.


End DebugProofs.

(** * Further properties of the normalizer *)
Module NormalizeMore.
Import PyStr Re Exn FlameGraphParser Props Notions PyStrFacts NormalizeProofs.

#[local] Arguments Ascii.eqb : simpl never.
#[local] Arguments is_char : simpl never.
#[local] Arguments is_hex : simpl never.
#[local] Arguments is_digit : simpl never.
#[local] Arguments is_space : simpl never.
#[local] Arguments is_word : simpl never.
#[local] Arguments is_letter : simpl never.
#[local] Arguments quiet_char : simpl never.

(** *** The digit pass *)

(** A greedy repetition whose continuation cannot fail takes the whole run. *)
Lemma many_whole_run {R : Type} p (k : list ascii → option R) s :
  (∀ u, is_Some (k u)) →
  ∃ run, Forall (λ c, p c = true) (take run s) ∧
         (∀ c, drop run s !! 0 = Some c → p c = false) ∧
         run ≤ length s ∧
         (∀ lo, lo ≤ run → many p lo s k = k (drop run s)).
Proof.
  intros Hk. induction s as [|c s (run & Hall & Hnext & Hlen & Hmany)].
  - exists 0. repeat split; [done | done | done |].
    intros lo Hlo. assert (lo = 0) as -> by lia. done.
  - destruct (p c) eqn:Hc.
    + exists (S run). split; [by constructor |]. split; [done |]. split; [simpl; lia |].
      intros lo Hlo. simpl. rewrite Hc, Hmany by lia.
      by destruct (Hk (drop run s)) as [y ->].
    + exists 0. split; [done |]. split; [by intros ? [= <-] |]. split; [lia |].
      intros lo Hlo. assert (lo = 0) as -> by lia. simpl. by rewrite Hc.
Qed.

Lemma sub_from_skip r t n s :
  n ≤ length s → sub_from r t n s = sub_from r t 0 (drop n s).
Proof.
  revert s. induction n as [|n IH]; intros s Hn; [done |].
  destruct s as [|c s]; [simpl in Hn; lia |].
  simpl in Hn. cbn [sub_from drop]. apply IH. lia.
Qed.

Lemma collapse_digits_run n s :
  Forall (λ c, is_digit c = true) (take n s) → n ≤ length s →
  (∀ c, drop n s !! 0 = Some c → is_digit c = false) →
  collapse_digits true s = collapse_digits false (drop n s).
Proof.
  revert s. induction n as [|n IH]; intros s Hall Hn Hnext.
  - destruct s as [|c s]; [done |]. simpl in *.
    by rewrite (Hnext c eq_refl).
  - destruct s as [|c s]; [simpl in Hn; lia |].
    simpl in *. inversion Hall as [|? ? Hc Hrest]; subst. rewrite Hc.
    apply IH; [done | lia | done].
Qed.

Lemma digits_collapse_aux n s :
  length s ≤ n → sub_from digits_re [TLit ["*"%char]] 0 s = collapse_digits false s.
Proof.
  revert s. induction n as [|n IH]; intros s Hn.
  - destruct s; [| simpl in Hn; lia]. by vm_compute.
  - destruct s as [|c s]; [by vm_compute |]. simpl in Hn.
    rewrite (sub_from_step _ _ digits_pos).
    destruct (is_digit c) eqn:Hc.
    + unfold match_here, digits_re. cbn [rmatch many]. rewrite Hc.
      match goal with |- context [many is_digit _ s ?k] =>
        destruct (many_whole_run is_digit k s) as (run & Hall & Hnext & Hlen & Hmany);
          [by eexists |]
      end.
      simpl pred. rewrite Hmany by lia. simpl length.
      rewrite length_drop.
      replace (S (length s) - (length s - run)) with (S run) by lia.
      cbn [collapse_digits app]. rewrite Hc. f_equal.
      rewrite sub_from_skip by done.
      rewrite IH by (rewrite length_drop; lia).
      symmetry. by apply collapse_digits_run.
    + destruct (match_here digits_re (c :: s)) as [[[|m] cs]|] eqn:Hm.
      * cbn [collapse_digits]. rewrite Hc. f_equal. apply IH. lia.
      * apply digits_re_match_inv in Hm as (_ & c' & s' & [= <- <-] & Hc').
        congruence.
      * cbn [collapse_digits]. rewrite Hc. f_equal. apply IH. lia.
Qed.

(** X1. The last step, [re.sub(r'\d+', '*', frame)], replaces every maximal
    run of decimal digits of the frame by a single star and keeps every other
    character. *)
Theorem digits_collapses_runs (frame : list ascii) :
  digits frame = collapse_digits false frame.
Proof. apply (digits_collapse_aux (length frame)). lia. Qed.

(** *** Frames that only the digit pass can touch *)

Lemma drop_prefix_app l s s' : drop_prefix l s = Some s' → s = l ++ s'.
Proof.
  revert s. induction l as [|a l IH]; intros [|c s]; simpl; try done.
  - by intros [= <-].
  - by intros [= <-].
  - destruct (Ascii.eqb_spec a c) as [->|]; [| done]. intros H. by rewrite (IH _ H).
Qed.

Lemma elem_of_drop (a : ascii) n s : a ∈ drop n s → a ∈ s.
Proof. intros H. rewrite <- (take_drop n s). apply elem_of_app. by right. Qed.

(** A pattern that starts with literal text needs every character of it. *)
Lemma lit_needs (R : Type) a l r2 s cs (k : list ascii → caps → option R) x :
  a ∈ l → rmatch R (Seq (Lit l) r2) s cs k = Some x → a ∈ s.
Proof.
  intros Ha. cbn [rmatch]. destruct (drop_prefix l s) as [s'|] eqn:Hd; [| done].
  intros _. rewrite (drop_prefix_app _ _ _ Hd). apply elem_of_app. by left.
Qed.

Lemma seq_needs (R : Type) (a : ascii) r1 r2 s cs (k : list ascii → caps → option R) x :
  (∀ u cs', rmatch R r2 u cs' k = Some x → a ∈ u) →
  rmatch R (Seq r1 r2) s cs k = Some x → a ∈ s.
Proof.
  intros Hr2 H. apply seq_inv in H as (n & cs' & H).
  apply Hr2 in H. by eapply elem_of_drop.
Qed.

Lemma no_match_without (a : ascii) r s :
  (∀ u len cs, match_here r u = Some (len, cs) → a ∈ u) →
  a ∉ s → all_suffixes (λ u, match_here r u = None) s.
Proof.
  intros Hneeds. induction s as [|c s IH]; intros Ha.
  - split; [| done]. destruct (match_here r []) as [[len cs]|] eqn:Hm; [| done].
    by apply Hneeds in Hm.
  - split.
    + destruct (match_here r (c :: s)) as [[len cs]|] eqn:Hm; [| done].
      by apply Hneeds in Hm.
    + apply IH. intros Hin. apply Ha. by right.
Qed.

Lemma annotation_needs u len cs :
  match_here annotation_re u = Some (len, cs) → "["%char ∈ u.
Proof.
  unfold match_here, annotation_re. apply seq_needs. intros v cs'.
  apply lit_needs. by left.
Qed.

Lemma underscores_needs u len cs :
  match_here underscores_re u = Some (len, cs) → "_"%char ∈ u.
Proof.
  unfold match_here, underscores_re. cbn [rmatch]. intros H.
  apply many_inv in H as (n & Hlo & Hn & Hall & _).
  destruct u as [|c u]; [simpl in Hn; lia |]. destruct n; [lia |].
  simpl in Hall. inversion Hall as [|? ? Hc _]; subst.
  apply Ascii.eqb_eq in Hc as <-. by left.
Qed.

Lemma snappy_needs u len cs :
  match_here snappy_re u = Some (len, cs) → "-"%char ∈ u.
Proof.
  unfold match_here, snappy_re. apply lit_needs.
  by repeat (first [left | right]).
Qed.

Lemma native_lib_needs u len cs :
  match_here native_lib_re u = Some (len, cs) → "-"%char ∈ u.
Proof.
  unfold match_here, native_lib_re. apply seq_needs. intros v cs'.
  apply lit_needs. by left.
Qed.

Lemma hex_needs dollars u len cs :
  is_dollars dollars → match_here (hex_re dollars) u = Some (len, cs) → "$"%char ∈ u.
Proof.
  intros Hd. unfold match_here, hex_re. apply lit_needs.
  destruct Hd as [-> | ->]; by left.
Qed.

Lemma lstrip_id s : Forall (λ c, is_space c = false) s → lstrip s = s.
Proof. intros H. destruct H as [|c s Hc _]; simpl; [done | by rewrite Hc]. Qed.

Lemma rstrip_id s : Forall (λ c, is_space c = false) s → rstrip s = s.
Proof.
  induction 1 as [|c s Hc _ IH]; simpl; [done |].
  rewrite IH, Hc. by destruct s.
Qed.

Lemma quiet_spec s :
  quiet s →
  Forall (λ c, is_space c = false) s ∧
  ("["%char ∉ s) ∧ ("_"%char ∉ s) ∧ ("-"%char ∉ s) ∧ ("$"%char ∉ s).
Proof.
  unfold quiet, quiet_char, is_char. intros H.
  assert (Hc : ∀ c, c ∈ s →
    is_space c = false ∧ c ≠ "["%char ∧ c ≠ "_"%char ∧ c ≠ "-"%char ∧ c ≠ "$"%char).
  { intros c Hin. rewrite Forall_forall in H. specialize (H c Hin).
    apply negb_true_iff in H.
    apply orb_false_iff in H as [H H5]. apply orb_false_iff in H as [H H4].
    apply orb_false_iff in H as [H H3]. apply orb_false_iff in H as [H H2].
    apply Ascii.eqb_neq in H2, H3, H4, H5.
    split; [done |]. by repeat split; intros ->. }
  split; [apply Forall_forall; intros c Hin; by apply Hc |].
  repeat split; intros Hin; apply Hc in Hin as (_ & ? & ? & ? & ?); congruence.
Qed.

(** The first three steps do nothing on a frame without whitespace,
    bracket, underscore or dash. *)
Lemma early_steps_id frame :
  Forall (λ c, is_space c = false) frame →
  "["%char ∉ frame → "_"%char ∉ frame → "-"%char ∉ frame →
  native_lib (snappy (clean frame)) = frame.
Proof.
  intros Hspace Hbr Hun Hdash.
  assert (Hclean : clean frame = frame).
  { unfold clean.
    rewrite (re_sub_id annotation_re [] frame)
      by (by apply (no_match_without "["), Hbr; apply annotation_needs).
    rewrite (re_sub_id underscores_re [] frame)
      by (by apply (no_match_without "_"), Hun; apply underscores_needs).
    unfold strip. by rewrite lstrip_id, rstrip_id. }
  assert (Hsnappy : snappy frame = frame).
  { unfold snappy. destruct (contains _ _); [| done].
    apply re_sub_id. by apply (no_match_without "-"), Hdash; apply snappy_needs. }
  rewrite Hclean, Hsnappy. unfold native_lib.
  apply re_sub_id. by apply (no_match_without "-"), Hdash; apply native_lib_needs.
Qed.

Lemma quiet_frame_collapse (frame : list ascii) :
  quiet frame → normalize_frame frame = collapse_digits false frame.
Proof.
  intros Hq. apply quiet_spec in Hq as (Hspace & Hbr & Hun & Hdash & Hdol).
  unfold normalize_frame. rewrite early_steps_id by done.
  unfold hex1, hex2.
  rewrite (re_sub_id hex2_re)
    by (apply (no_match_without "$"), Hdol; intros u len cs;
        apply (hex_needs ["$"%char; "$"%char] u len cs); by right).
  rewrite (re_sub_id hex1_re)
    by (apply (no_match_without "$"), Hdol; intros u len cs;
        apply (hex_needs ["$"%char] u len cs); by left).
  apply digits_collapse_aux with (n := length frame). lia.
Qed.

(** X2. On a frame without whitespace, bracket, underscore, dash or dollar
    the first four steps of the normalizer do nothing: the normalized frame is
    the frame with every maximal run of decimal digits replaced by one star. *)
Theorem quiet_frame_normalized (frame : list ascii) :
  quiet frame → normalize_frame frame = collapse_digits false frame.
Proof. apply quiet_frame_collapse. Qed.

Lemma quiet_frame_normalized_witness :
  normalize_frame (str "sun.reflect.GeneratedMethodAccessor123.invoke")
  = str "sun.reflect.GeneratedMethodAccessor*.invoke".
Proof.
  etrans.
  - apply (quiet_frame_normalized (str "sun.reflect.GeneratedMethodAccessor123.invoke")).
    apply Forall_forall. intros c Hc.
    repeat (apply elem_of_cons in Hc as [-> | Hc]; [reflexivity |]). by inversion Hc.
  - vm_compute. reflexivity.
Defined.

(** *** Digits in a quiet frame do not matter *)

Lemma collapse_digits_app_digits b d q :
  d ≠ [] → Forall (λ c, is_digit c = true) d →
  collapse_digits b (d ++ q) = (if b then [] else ["*"%char]) ++ collapse_digits true q.
Proof.
  intros Hne Hd. revert b. induction Hd as [|c d Hc Hd IH]; intros b; [done |].
  cbn [app collapse_digits]. rewrite Hc.
  destruct d as [|c' d].
  - by destruct b.
  - rewrite IH by done. by destruct b.
Qed.

Lemma collapse_digits_app b p :
  ∃ b', ∀ r, collapse_digits b (p ++ r) = collapse_digits b p ++ collapse_digits b' r.
Proof.
  revert b. induction p as [|c p IH]; intros b; [by exists b |].
  cbn [app collapse_digits]. destruct (is_digit c).
  - destruct (IH true) as [b' H]. exists b'. intros r. rewrite H. by destruct b.
  - destruct (IH false) as [b' H]. exists b'. intros r. by rewrite H.
Qed.

Lemma is_digit_quiet c : is_digit c = true → quiet_char c = true.
Proof. by destruct c as [[] [] [] [] [] [] [] []]. Qed.

(** X3. Two frames that differ only in the digits of one number normalize
    to the same frame, when the rest of the frame has no whitespace, bracket,
    underscore, dash or dollar. *)
Theorem digits_do_not_matter (p d1 d2 q : list ascii) :
  quiet p → quiet q →
  d1 ≠ [] → Forall (λ c, is_digit c = true) d1 →
  d2 ≠ [] → Forall (λ c, is_digit c = true) d2 →
  normalize_frame (p ++ d1 ++ q) = normalize_frame (p ++ d2 ++ q).
Proof.
  intros Hp Hq Hne1 Hd1 Hne2 Hd2.
  assert (Hquiet : ∀ d, Forall (λ c, is_digit c = true) d → quiet (p ++ d ++ q)).
  { intros d Hd. apply Forall_app; split; [done |]. apply Forall_app; split; [| done].
    eapply Forall_impl; [exact Hd |]. apply is_digit_quiet. }
  rewrite !quiet_frame_collapse by by apply Hquiet.
  destruct (collapse_digits_app false p) as [b Happ].
  by rewrite !Happ, !collapse_digits_app_digits.
Qed.

Lemma digits_do_not_matter_witness :
  normalize_frame (str "Foo.lambda" ++ str "45" ++ str ".run")
  = normalize_frame (str "Foo.lambda" ++ str "7" ++ str ".run").
Proof.
  apply (digits_do_not_matter (str "Foo.lambda") (str "45") (str "7") (str ".run"));
    try discriminate; by repeat constructor.
Defined.

(** *** Whole stack traces *)

Lemma normalize_frame_no_separator frame :
  ";"%char ∉ frame → ";"%char ∉ normalize_frame frame.
Proof.
  intros Hframe.
  assert (H : Forall (λ c, c ≠ ";"%char) (normalize_frame frame)).
  { apply normalize_frame_in; try done.
    - by intros c Hc ->.
    - apply Forall_forall. by intros c Hc ->. }
  rewrite Forall_forall in H. intros Hin. by apply (H _ Hin).
Qed.

(** X4. Normalization works frame by frame and never merges or splits
    frames: the frames of the normalized stack trace are the normalized
    frames of the stack trace, one for one. *)
Theorem normalize_keeps_frames (stack_trace : list ascii) :
  split ";" (normalize_stack_trace stack_trace)
  = normalize_frame <$> split ";" stack_trace.
Proof.
  unfold normalize_stack_trace. apply split_join.
  - pose proof (split_not_nil ";" stack_trace). by destruct (split ";" stack_trace).
  - apply Forall_fmap. eapply Forall_impl; [apply split_Forall |].
    intros frame. apply normalize_frame_no_separator.
Qed.

Lemma join_Forall (P : ascii → Prop) sep parts :
  P sep → Forall (Forall P) parts → Forall P (join sep parts).
Proof.
  intros Hsep. induction 1 as [|x parts Hx Hparts IH]; simpl; [done |].
  destruct parts; [done |].
  apply Forall_app; split; [done |]. by constructor.
Qed.

Lemma normalize_digit_free (stack_trace : list ascii) :
  digit_free (normalize_stack_trace stack_trace).
Proof.
  unfold normalize_stack_trace. apply join_Forall; [done |].
  apply Forall_fmap, Forall_forall. intros frame _. apply digits_digit_free.
Qed.

(** X5. A normalized stack trace contains no decimal digit. *)
Theorem normalized_has_no_digit (stack_trace : list ascii) :
  digit_free (normalize_stack_trace stack_trace).
Proof. apply normalize_digit_free. Qed.

(** *** Generated identifiers after a dollar *)

(** The greedy repetition succeeds with its whole run when what follows
    the run lets the rest of the pattern succeed. *)
Lemma many_takes_run {R : Type} p lo (run rest : list ascii) (k : list ascii → option R) x :
  Forall (λ c, p c = true) run → lo ≤ length run →
  k rest = Some x →
  (∀ c, rest !! 0 = Some c → p c = false) →
  many p lo (run ++ rest) k = Some x.
Proof.
  intros Hrun. revert lo. induction Hrun as [|c run Hc Hrun IH]; intros lo Hlo Hk Hnext.
  - simpl in Hlo. assert (lo = 0) as -> by lia. destruct rest as [|c rest]; simpl.
    + done.
    + by rewrite (Hnext c eq_refl).
  - cbn [app many]. rewrite Hc. rewrite IH; [done | simpl in Hlo; lia | done | done].
Qed.

Lemma hex_re_match_at dollars h rest :
  Forall (λ c, is_hex c = true) h → 3 ≤ length h → at_boundary rest = true →
  match_here (hex_re dollars) (dollars ++ h ++ rest)
  = Some (length dollars + length h, []).
Proof.
  intros Hh Hlen Hrest. unfold match_here, hex_re. cbn [rmatch].
  assert (drop_prefix dollars (dollars ++ h ++ rest) = Some (h ++ rest)) as ->.
  { induction dollars as [|a d IH]; simpl; [done |]. by rewrite Ascii.eqb_refl. }
  apply many_takes_run; [done | done | |].
  - rewrite boundary_spec, Hrest. do 2 f_equal. rewrite !length_app. lia.
  - intros c Hc. destruct rest as [|c' rest]; [done |]. injection Hc as ->.
    destruct (is_hex c) eqn:Hhex; [| done].
    by rewrite (is_hex_not_boundary c rest Hhex) in Hrest.
Qed.

Lemma hex_re_head dollars u len cs :
  is_dollars dollars → match_here (hex_re dollars) u = Some (len, cs) →
  ∃ u', u = "$"%char :: u'.
Proof.
  intros Hd H. unfold match_here, hex_re in H. cbn [rmatch] in H.
  destruct (drop_prefix dollars u) as [u'|] eqn:Hp; [| done].
  apply drop_prefix_app in Hp as ->. destruct Hd as [-> | ->]; by eexists.
Qed.

(** A pass copies a prefix in which no match starts. *)
Lemma hex_pass_copies dollars p r :
  is_dollars dollars → "$"%char ∉ p →
  re_sub (hex_re dollars) [TLit (dollars ++ ["*"%char])] (p ++ r)
  = p ++ re_sub (hex_re dollars) [TLit (dollars ++ ["*"%char])] r.
Proof.
  intros Hd. unfold re_sub. induction p as [|c p IH]; intros Hp; [done |].
  apply not_elem_of_cons in Hp as [Hc Hp]. cbn [app].
  rewrite (sub_from_step _ _ (λ s len cs, hex_re_pos dollars s len cs Hd)).
  destruct (match_here (hex_re dollars) (c :: p ++ r)) as [[len cs]|] eqn:Hm.
  - apply (hex_re_head _ _ _ _ Hd) in Hm as [u' [= Hc' _]]. done.
  - by rewrite IH.
Qed.

Lemma hex_pass_id dollars s :
  is_dollars dollars →
  all_suffixes (λ u, hex_at dollars u = false) s →
  re_sub (hex_re dollars) [TLit (dollars ++ ["*"%char])] s = s.
Proof.
  intros Hd Hs. apply re_sub_id. eapply all_suffixes_impl; [| exact Hs].
  intros u Hu. pose proof (hex_re_match dollars u) as Hm. by rewrite Hu in Hm.
Qed.

Lemma no_dollar_prefix dollars p r :
  is_dollars dollars → "$"%char ∉ p →
  all_suffixes (λ u, hex_at dollars u = false) r →
  all_suffixes (λ u, hex_at dollars u = false) (p ++ r).
Proof.
  intros Hd. induction p as [|c p IH]; intros Hp Hr; [done |].
  apply not_elem_of_cons in Hp as [Hc Hp]. split; [| by apply IH].
  unfold hex_at. destruct Hd as [-> | ->]; simpl;
    by destruct (Ascii.eqb_spec "$" c) as [Heq|].
Qed.

Lemma no_dollar_no_hex dollars s :
  is_dollars dollars → "$"%char ∉ s → all_suffixes (λ u, hex_at dollars u = false) s.
Proof.
  intros Hd Hs. rewrite <- (app_nil_r s). apply no_dollar_prefix; [done | done |].
  split; [| done]. by destruct Hd as [-> | ->].
Qed.

Lemma re_sub_at_match r repl m rest cs :
  (∀ s len cs, match_here r s = Some (len, cs) → 0 < len) →
  m ≠ [] → match_here r (m ++ rest) = Some (length m, cs) →
  re_sub r [TLit repl] (m ++ rest) = repl ++ re_sub r [TLit repl] rest.
Proof.
  intros Hpos Hm Hmatch. unfold re_sub. destruct m as [|c m]; [done |].
  cbn [app]. rewrite (sub_from_step _ _ Hpos). cbn [app] in Hmatch.
  rewrite Hmatch. simpl length. f_equal.
  rewrite sub_from_skip by (rewrite length_app; lia).
  by rewrite drop_app_length.
Qed.

(** The pass of a pattern on its own kind of identifier. *)
Lemma hex_pass_collapses dollars p h t :
  is_dollars dollars → "$"%char ∉ p → "$"%char ∉ t →
  Forall (λ c, is_hex c = true) h → 3 ≤ length h → at_boundary t = true →
  re_sub (hex_re dollars) [TLit (dollars ++ ["*"%char])] (p ++ dollars ++ h ++ t)
  = p ++ dollars ++ "*"%char :: t.
Proof.
  intros Hd Hp Ht Hh Hlen Hb.
  rewrite hex_pass_copies by done. f_equal.
  replace (dollars ++ h ++ t) with ((dollars ++ h) ++ t) by by rewrite <- app_assoc.
  rewrite (re_sub_at_match _ _ _ _ []).
  - rewrite <- app_assoc. cbn [app]. do 2 f_equal.
    apply hex_pass_id; [done |]. by apply no_dollar_no_hex.
  - intros s len cs. by apply hex_re_pos.
  - by destruct Hd as [-> | ->].
  - rewrite <- app_assoc, length_app. by apply hex_re_match_at.
Qed.

Lemma is_hex_not_dollar c : is_hex c = true → c ≠ "$"%char.
Proof. by intros H ->. Qed.

(** The two-dollar pass leaves a one-dollar identifier alone. *)
Lemma hex2_pass_skips_one_dollar p h t :
  "$"%char ∉ p → "$"%char ∉ t → Forall (λ c, is_hex c = true) h → h ≠ [] →
  hex2 (p ++ "$"%char :: h ++ t) = p ++ "$"%char :: h ++ t.
Proof.
  intros Hp Ht Hh Hne.
  assert (H2 : is_dollars ["$"%char; "$"%char]) by by right.
  apply (hex_pass_id _ _ H2).
  assert (Hrest : "$"%char ∉ h ++ t).
  { intros Hin. apply elem_of_app in Hin as [Hin | Hin]; [| done].
    rewrite Forall_forall in Hh. by apply (is_hex_not_dollar _ (Hh _ Hin)). }
  apply no_dollar_prefix; [done | done |].
  split; [| by apply no_dollar_no_hex].
  destruct h as [|c h]; [done |]. inversion Hh as [|? ? Hc _]; subst.
  unfold hex_at. simpl. destruct (Ascii.eqb_spec "$" c) as [Heq|]; [| done].
  subst. done.
Qed.

(** The one-dollar pass leaves a collapsed two-dollar identifier alone. *)
Lemma hex1_pass_skips_collapsed p t :
  "$"%char ∉ p → "$"%char ∉ t →
  hex1 (p ++ "$"%char :: "$"%char :: "*"%char :: t)
  = p ++ "$"%char :: "$"%char :: "*"%char :: t.
Proof.
  intros Hp Ht.
  assert (H1 : is_dollars ["$"%char]) by by left.
  apply (hex_pass_id _ _ H1).
  apply no_dollar_prefix; [done | done |].
  repeat (split; [done |]). by apply no_dollar_no_hex.
Qed.

Lemma collapse_digits_quiet_char b c r :
  is_digit c = false → collapse_digits b (c :: r) = c :: collapse_digits false r.
Proof. intros H. simpl. by rewrite H. Qed.

Lemma quiet_no_dollar s : quiet s → "$"%char ∉ s.
Proof. intros H. by apply quiet_spec in H as (_ & _ & _ & _ & H). Qed.

Lemma calm_chars (s : list ascii) :
  Forall (λ c, calm_char c = true) s →
  Forall (λ c, is_space c = false) s ∧
  ("["%char ∉ s) ∧ ("_"%char ∉ s) ∧ ("-"%char ∉ s).
Proof.
  unfold calm_char, is_char. intros H.
  assert (Hc : ∀ c, c ∈ s →
    is_space c = false ∧ c ≠ "["%char ∧ c ≠ "_"%char ∧ c ≠ "-"%char).
  { intros c Hin. rewrite Forall_forall in H. specialize (H c Hin).
    apply negb_true_iff in H.
    apply orb_false_iff in H as [H H4].
    apply orb_false_iff in H as [H H3]. apply orb_false_iff in H as [H H2].
    apply Ascii.eqb_neq in H2, H3, H4.
    split; [done |]. by repeat split; intros ->. }
  split; [apply Forall_forall; intros c Hin; by apply Hc |].
  repeat split; intros Hin; apply Hc in Hin as (_ & ? & ? & ?); congruence.
Qed.

Lemma quiet_calm c : quiet_char c = true → calm_char c = true.
Proof. by destruct c as [[] [] [] [] [] [] [] []]. Qed.

Lemma is_hex_calm c : is_hex c = true → calm_char c = true.
Proof. by destruct c as [[] [] [] [] [] [] [] []]. Qed.

Lemma generated_id_aux dollars p h t :
  is_dollars dollars → quiet p → quiet t →
  Forall (λ c, is_hex c = true) h → 3 ≤ length h → at_boundary t = true →
  normalize_frame (p ++ dollars ++ h ++ t)
  = collapse_digits false p ++ dollars ++ "*"%char :: collapse_digits false t.
Proof.
  intros Hd Hp Ht Hh Hlen Hb.
  assert (Hcalm : Forall (λ c, calm_char c = true) (p ++ dollars ++ h ++ t)).
  { repeat (apply Forall_app; split).
    - eapply Forall_impl; [exact Hp |]. apply quiet_calm.
    - by destruct Hd as [-> | ->]; repeat constructor.
    - eapply Forall_impl; [exact Hh |]. apply is_hex_calm.
    - eapply Forall_impl; [exact Ht |]. apply quiet_calm. }
  apply calm_chars in Hcalm as (Hspace & Hbr & Hun & Hdash).
  pose proof (quiet_no_dollar _ Hp) as Hpd.
  pose proof (quiet_no_dollar _ Ht) as Htd.
  unfold normalize_frame. rewrite early_steps_id by done.
  assert (Hpasses : hex1 (hex2 (p ++ dollars ++ h ++ t)) = p ++ dollars ++ "*"%char :: t).
  { destruct Hd as [-> | ->].
    - cbn [app]. rewrite hex2_pass_skips_one_dollar; [| done | done | done |].
      + apply (hex_pass_collapses ["$"%char]); try done. by left.
      + intros ->. simpl in Hlen. lia.
    - rewrite (hex_pass_collapses ["$"%char; "$"%char]) by (try done; by right).
      cbn [app]. by apply hex1_pass_skips_collapsed. }
  rewrite Hpasses.
  rewrite (digits_collapse_aux (length (p ++ dollars ++ "*"%char :: t))) by lia.
  destruct (collapse_digits_app false p) as [b ->]. f_equal.
  destruct Hd as [-> | ->]; cbn [app]; by rewrite !collapse_digits_quiet_char.
Qed.

(** *** The snappy library name *)

(** A match of the annotation pattern ends the text with a bracket or with
    whitespace; one of the underscore pattern with an underscore or whitespace. *)
Lemma eos_inv (R : Type) s cs (k : list ascii → caps → option R) x :
  rmatch R Eos s cs k = Some x → Forall (λ c, is_space c = true) s.
Proof.
  cbn [rmatch]. destruct s as [|c [|c' s]]; [done | | done].
  destruct (Ascii.eqb_spec c "010") as [->|]; [| done]. by repeat constructor.
Qed.

Lemma spaces_then_eos (R : Type) s cs (k : list ascii → caps → option R) x :
  rmatch R (Seq (Rep is_space 0) Eos) s cs k = Some x →
  Forall (λ c, is_space c = true) s.
Proof.
  cbn [rmatch]. intros H. apply many_inv in H as (n & _ & _ & Hall & H).
  rewrite <- (take_drop n s). apply Forall_app; split; [done |].
  by apply (eos_inv R _ cs k x).
Qed.

Lemma annotation_end u len cs :
  match_here annotation_re u = Some (len, cs) →
  ∃ pre ws, u = pre ++ "]"%char :: ws ∧ Forall (λ c, is_space c = true) ws.
Proof.
  unfold match_here, annotation_re. cbn [rmatch]. intros H.
  apply many_inv in H as (n & _ & _ & _ & H).
  destruct (drop_prefix (str "[") (drop n u)) as [u1|] eqn:H1; [| done].
  apply drop_prefix_app in H1. destruct u1 as [|c u2]; [done |].
  destruct (is_letter c); [| done].
  destruct (drop_prefix (str "]") u2) as [u3|] eqn:H3; [| done].
  apply drop_prefix_app in H3. subst u2.
  exists (take n u ++ str "[" ++ [c]), u3. split.
  - rewrite <- (take_drop n u) at 1. rewrite H1. by rewrite <- !app_assoc.
  - match type of H with many _ _ _ ?k' = _ =>
      change (rmatch _ (Seq (Rep is_space 0) Eos) u3 []
                (λ s' cs0, Some (length u - length s', cs0)) = Some (len, cs)) in H
    end.
    by apply spaces_then_eos in H.
Qed.

Lemma underscores_end u len cs :
  match_here underscores_re u = Some (len, cs) →
  Forall (λ c, c = "_"%char ∨ is_space c = true) u.
Proof.
  unfold match_here, underscores_re. cbn [rmatch]. intros H.
  apply many_inv in H as (n & _ & _ & Hall & H).
  match type of H with many _ _ ?v ?k' = _ =>
    change (rmatch _ (Seq (Rep is_space 0) Eos) v []
              (λ s' cs0, Some (length u - length s', cs0)) = Some (len, cs)) in H
  end.
  apply spaces_then_eos in H.
  rewrite <- (take_drop n u). apply Forall_app; split.
  - eapply Forall_impl; [exact Hall |]. intros c Hc. left.
    by apply Ascii.eqb_eq in Hc.
  - eapply Forall_impl; [exact H |]. intros c Hc. by right.
Qed.

(** A text that ends with an ordinary character is left alone by [clean]
    when it also starts with one. *)
Lemma all_suffixes_snoc (P : list ascii → Prop) body c :
  P [] → (∀ u, P (u ++ [c])) → all_suffixes P (body ++ [c]).
Proof.
  intros Hnil Hsnoc. induction body as [|a body IH].
  - split; [apply (Hsnoc []) | by split].
  - split; [apply (Hsnoc (a :: body)) | done].
Qed.

Lemma rstrip_snoc body c : is_space c = false → rstrip (body ++ [c]) = body ++ [c].
Proof.
  intros Hc. induction body as [|a body IH]; simpl; [by rewrite Hc |].
  rewrite IH. by destruct body.
Qed.

Lemma clean_id_ordinary_ends a body c :
  is_space a = false → is_space c = false → c ≠ "]"%char → c ≠ "_"%char →
  clean (a :: body ++ [c]) = a :: body ++ [c].
Proof.
  intros Ha Hc Hbr Hun. unfold clean.
  change (a :: body ++ [c]) with ((a :: body) ++ [c]).
  rewrite (re_sub_id annotation_re).
  2:{ apply all_suffixes_snoc; [done |]. intros u.
      destruct (match_here annotation_re (u ++ [c])) as [[len cs]|] eqn:Hm; [| done].
      apply annotation_end in Hm as (pre & ws & Heq & Hws). exfalso.
      destruct ws as [|w ws _] using rev_ind.
      - change (pre ++ ["]"%char]) with (pre ++ ["]"%char]) in Heq.
        apply app_inj_tail in Heq as [_ ?]. done.
      - rewrite app_comm_cons, app_assoc in Heq.
        apply app_inj_tail in Heq as [_ ->].
        apply Forall_app in Hws as [_ Hw]. inversion Hw; congruence. }
  rewrite (re_sub_id underscores_re).
  2:{ apply all_suffixes_snoc; [done |]. intros u.
      destruct (match_here underscores_re (u ++ [c])) as [[len cs]|] eqn:Hm; [| done].
      apply underscores_end in Hm. apply Forall_app in Hm as [_ Hm].
      inversion Hm as [|? ? [-> | Hsp] _]; [done | congruence]. }
  unfold strip. cbn [app lstrip]. rewrite Ha.
  change (a :: body ++ [c]) with ((a :: body) ++ [c]). by apply rstrip_snoc.
Qed.

Lemma contains_app p a b : contains p (a ++ p ++ b) = true.
Proof.
  induction a as [|c a IH]; cbn [app].
  - assert (drop_prefix p (p ++ b) = Some b) as Hp.
    { induction p as [|x p IHp]; simpl; [by destruct b | by rewrite Ascii.eqb_refl]. }
    destruct (p ++ b) eqn:E; simpl; by rewrite Hp.
  - simpl. rewrite IH. by destruct (drop_prefix p (c :: a ++ p ++ b)).
Qed.

Lemma drop_prefix_same p b : drop_prefix p (p ++ b) = Some b.
Proof. induction p as [|x p IH]; simpl; [done | by rewrite Ascii.eqb_refl]. Qed.

Lemma lit_seq_inv (R : Type) l r2 s cs (k : list ascii → caps → option R) x :
  rmatch R (Seq (Lit l) r2) s cs k = Some x →
  ∃ s', s = l ++ s' ∧ rmatch R r2 s' cs k = Some x.
Proof.
  cbn [rmatch]. destruct (drop_prefix l s) as [s'|] eqn:Hp; [| done].
  apply drop_prefix_app in Hp. eauto.
Qed.

Lemma lit_seq_match (R : Type) l r2 s' cs (k : list ascii → caps → option R) :
  rmatch R (Seq (Lit l) r2) (l ++ s') cs k = rmatch R r2 s' cs k.
Proof. cbn [rmatch]. by rewrite drop_prefix_same. Qed.

Lemma lit_match (R : Type) l s' cs (k : list ascii → caps → option R) :
  rmatch R (Lit l) (l ++ s') cs k = k s' cs.
Proof. cbn [rmatch]. by rewrite drop_prefix_same. Qed.

(** One dash-free segment and the dash after it. *)
Lemma segment_match (R : Type) r2 seg rest cs (k : list ascii → caps → option R) x :
  seg ≠ [] → "-"%char ∉ seg →
  rmatch R r2 rest cs k = Some x →
  rmatch R (Seq (Seq (Rep (not_char "-") 1) (Lit (str "-"))) r2)
    (seg ++ "-"%char :: rest) cs k = Some x.
Proof.
  intros Hne Hseg Hk. cbn [rmatch]. apply many_takes_run.
  - apply Forall_forall. intros c Hc. unfold not_char.
    destruct (Ascii.eqb_spec "-" c) as [<-|]; done.
  - destruct seg; [done | simpl; lia].
  - change ("-"%char :: rest) with (str "-" ++ rest). by rewrite drop_prefix_same.
  - by intros c [= <-].
Qed.

Lemma snappy_re_pos s len cs : match_here snappy_re s = Some (len, cs) → 0 < len.
Proof.
  unfold match_here, snappy_re. intros H.
  apply lit_seq_inv in H as (s' & -> & H).
  apply rmatch_inv in H as (n & cs' & Hn & [= <- _]).
  simpl. rewrite length_drop. lia.
Qed.

Lemma snappy_re_nil : match_here snappy_re [] = None.
Proof. reflexivity. Qed.

(** The pattern matches the whole name when the six segments are not empty
    and have no dash. *)
Lemma snappy_re_match s1 s2 s3 s4 s5 s6 :
  Forall (λ seg, seg ≠ [] ∧ "-"%char ∉ seg) [s1; s2; s3; s4; s5; s6] →
  let name := str "snappy-" ++ join "-" [s1; s2; s3; s4; s5; s6]
              ++ str "-libsnappyjava.so" in
  match_here snappy_re name = Some (length name, []).
Proof.
  intros Hsegs name.
  repeat match goal with
         | H : Forall _ (_ :: _) |- _ => inversion H as [|? ? [? ?] ?]; subst; clear H
         end.
  unfold match_here, snappy_re.
  assert (Hname : name = str "snappy-" ++ s1 ++ "-"%char :: s2 ++ "-"%char :: s3
                    ++ "-"%char :: s4 ++ "-"%char :: s5 ++ "-"%char :: s6
                    ++ "-"%char :: str "libsnappyjava.so" ++ []).
  { unfold name. cbn [join]. rewrite app_nil_r.
    repeat (rewrite <- !app_assoc; cbn [app]). done. }
  rewrite Hname at 1. rewrite lit_seq_match.
  do 6 (apply segment_match; [done | done |]).
  rewrite lit_match. by rewrite Nat.sub_0_r.
Qed.


Lemma snappy_name_aux s1 s2 s3 s4 s5 s6 :
  Forall (λ seg, seg ≠ [] ∧ "-"%char ∉ seg) [s1; s2; s3; s4; s5; s6] →
  normalize_frame (str "snappy-" ++ join "-" [s1; s2; s3; s4; s5; s6]
                   ++ str "-libsnappyjava.so")
  = str "snappy-*-libsnappyjava.so".
Proof.
  intros Hsegs. pose proof (snappy_re_match _ _ _ _ _ _ Hsegs) as Hmatch.
  cbv zeta in Hmatch. revert Hmatch.
  generalize (join "-" [s1; s2; s3; s4; s5; s6]). intros segs Hmatch.
  set (name := str "snappy-" ++ segs ++ str "-libsnappyjava.so") in *.
  assert (Hclean : clean name = name).
  { assert (name = "s"%char :: (str "nappy-" ++ segs ++ str "-libsnappyjava.s") ++ ["o"%char])
      as -> by (unfold name; cbn [app list_ascii_of_string]; by rewrite <- !app_assoc).
    by apply clean_id_ordinary_ends. }
  assert (Hcontains : contains (str "libsnappyjava.so") name = true).
  { assert (name = (str "snappy-" ++ segs ++ ["-"%char]) ++ str "libsnappyjava.so" ++ [])
      as -> by (unfold name; rewrite app_nil_r, <- !app_assoc; done).
    apply contains_app. }
  assert (Hsnappy : snappy name = str "snappy-*-libsnappyjava.so").
  { unfold snappy. rewrite Hcontains.
    rewrite <- (app_nil_r name) at 1.
    rewrite (re_sub_at_match _ _ _ _ [] snappy_re_pos).
    - unfold re_sub. cbn [sub_from]. rewrite snappy_re_nil. by rewrite app_nil_r.
    - by unfold name.
    - by rewrite app_nil_r. }
  unfold normalize_frame. rewrite Hclean, Hsnappy. by vm_compute.
Qed.

(** X6. Whatever the version and the five hash or build segments of a
    snappy library file name are, as long as none is empty or contains a dash,
    the frame normalizes to [snappy-*-libsnappyjava.so]. *)
Theorem snappy_name_collapsed (s1 s2 s3 s4 s5 s6 : list ascii) :
  Forall (λ seg, seg ≠ [] ∧ "-"%char ∉ seg) [s1; s2; s3; s4; s5; s6] →
  normalize_frame (str "snappy-" ++ join "-" [s1; s2; s3; s4; s5; s6]
                   ++ str "-libsnappyjava.so")
  = str "snappy-*-libsnappyjava.so".
Proof. apply snappy_name_aux. Qed.

Lemma snappy_name_collapsed_witness :
  normalize_frame (str "snappy-" ++ join "-" [str "1.1.7"; str "6b5c8fd"; str "1";
                                               str "8e7b"; str "4e8"; str "a4c5cc9d"]
                   ++ str "-libsnappyjava.so")
  = str "snappy-*-libsnappyjava.so".
Proof.
  apply (snappy_name_collapsed (str "1.1.7") (str "6b5c8fd") (str "1")
           (str "8e7b") (str "4e8") (str "a4c5cc9d")).
  repeat constructor; try discriminate;
    intros Hin; repeat (apply elem_of_cons in Hin as [Hin | Hin]; [discriminate |]);
    by inversion Hin.
Defined.

(** X7. A generated identifier, one or two dollars followed by three or
    more characters of [[a-f0-9]], collapses to the dollars and a star when it
    is followed by a dot or ends the frame, and the digits of the identifier
    are not turned into stars of their own; the rest of the frame, free of
    whitespace, bracket, underscore, dash and dollar, only has its digit runs
    collapsed. *)
Theorem generated_identifier_collapsed (dollars p h q : list ascii) :
  is_dollars dollars → quiet p → quiet q →
  Forall (λ c, is_hex c = true) h → 3 ≤ length h →
  normalize_frame (p ++ dollars ++ h ++ "."%char :: q)
  = collapse_digits false p ++ dollars ++ "*"%char :: "."%char :: collapse_digits false q
  ∧ normalize_frame (p ++ dollars ++ h)
  = collapse_digits false p ++ dollars ++ ["*"%char].
Proof.
  intros Hd Hp Hq Hh Hlen. split.
  - apply (generated_id_aux dollars p h ("."%char :: q)); try done.
    constructor; [reflexivity | exact Hq].
  - rewrite <- (app_nil_r h) at 1.
    apply (generated_id_aux dollars p h []); try done. constructor.
Qed.

Lemma generated_identifier_collapsed_witness :
  normalize_frame (str "com.foo.Bar" ++ str "$$" ++ str "4e5e6" ++ "."%char :: str "run")
  = str "com.foo.Bar$$*.run".
Proof.
  etrans.
  - apply (generated_identifier_collapsed (str "$$") (str "com.foo.Bar") (str "4e5e6")
             (str "run")); [by right | | | by repeat constructor | simpl; lia];
      by repeat constructor.
  - reflexivity.
Defined.

End NormalizeMore.

(** * Further properties of the parser *)
Module ParserMore.
Import PyStr Re Exn FlameGraphParser Props Notions PyStrFacts NormalizeProofs
  NormalizeMore ParserProofs.

#[local] Arguments Ascii.eqb : simpl never.
#[local] Arguments is_space : simpl never.
#[local] Arguments is_char : simpl never.
#[local] Arguments is_digit : simpl never.
#[local] Arguments normalize_stack_trace : simpl never.

(** *** One line *)

(** [parse_line] adds the entry of the line, if it has one. *)
Lemma parse_line_entry line st :
  parse_line line st =
    Ok (match line_entry line with
        | Some (k, count) => (add_count k count (fst st), (snd st + count)%Z)
        | None => st
        end).
Proof.
  unfold parse_line, line_entry, rsplit1.
  destruct (strip line); [done |].
  destruct (rcut " " line) as [[p0 p1]|]; [| done].
  unfold try_body, py_int. by destruct (int_literal (strip p1)).
Qed.

Lemma rstrip_space_snoc s c : is_space c = true → rstrip (s ++ [c]) = rstrip s.
Proof.
  intros Hc. induction s as [|a s IH]; simpl; [by rewrite Hc |]. by rewrite IH.
Qed.

Lemma lstrip_spaces s : Forall (λ c, is_space c = true) s → lstrip s = [].
Proof. induction 1 as [|c s Hc _ IH]; simpl; [done | by rewrite Hc]. Qed.

Lemma lstrip_snoc s c :
  lstrip (s ++ [c]) = if decide (lstrip s = []) then lstrip [c] else lstrip s ++ [c].
Proof.
  induction s as [|a s IH]; simpl; [done |].
  destruct (is_space a); [done |]. by rewrite decide_False.
Qed.

Lemma strip_space_snoc s c : is_space c = true → strip (s ++ [c]) = strip s.
Proof.
  intros Hc. unfold strip. rewrite lstrip_snoc. case_decide as Hs.
  - simpl. rewrite Hc, Hs. done.
  - by apply rstrip_space_snoc.
Qed.

Lemma rcut_snoc c s :
  c ≠ " "%char →
  rcut " " (s ++ [c]) = (λ ab, (fst ab, snd ab ++ [c])) <$> rcut " " s.
Proof.
  intros Hc. induction s as [|a s IH]; simpl.
  - by destruct (Ascii.eqb_spec c " ").
  - rewrite IH. destruct (rcut " " s) as [[x y]|]; simpl; [done |].
    by destruct (Ascii.eqb a " ").
Qed.

(** X8. A line that ends with a space character is skipped, whatever
    comes before the space: the count segment after the last space is empty. *)
Theorem line_ending_in_space_skipped (line : list ascii) (st : state) :
  parse_line (line ++ [" "%char]) st = Ok st.
Proof.
  rewrite parse_line_entry. unfold line_entry.
  rewrite (rcut_app " " line []) by apply not_elem_of_nil.
  by destruct (strip (line ++ [" "%char])).
Qed.

(** X9. Whitespace other than a space at the end of a line, such as the
    carriage return of a CRLF line ending, makes no difference to the line. *)
Theorem trailing_whitespace_ignored (line : list ascii) (c : ascii) (st : state) :
  is_space c = true → c ≠ " "%char →
  parse_line (line ++ [c]) st = parse_line line st.
Proof.
  intros Hc Hne. rewrite !parse_line_entry. f_equal. unfold line_entry.
  rewrite strip_space_snoc, rcut_snoc by done.
  destruct (strip line); [done |].
  destruct (rcut " " line) as [[p0 p1]|]; simpl; [| done].
  by rewrite strip_space_snoc.
Qed.

Lemma trailing_whitespace_ignored_witness :
  parse_line (str "a;b 5" ++ ["013"%char]) (∅, 0%Z) = parse_line (str "a;b 5") (∅, 0%Z).
Proof.
  apply (trailing_whitespace_ignored (str "a;b 5") "013"%char (∅, 0%Z));
    [reflexivity | discriminate].
Defined.

(** *** The whole table *)

Lemma parse_lines_cons line lines st :
  parse_lines (line :: lines) st =
    parse_lines lines (match line_entry line with
                       | Some (k, count) => (add_count k count (fst st), (snd st + count)%Z)
                       | None => st
                       end).
Proof. cbn [parse_lines]. by rewrite parse_line_entry. Qed.

Lemma add_count_lookup (k k' : list ascii) (count : Z) (tbl : gmap (list ascii) Z) :
  default 0%Z (add_count k count tbl !! k')
  = (default 0 (tbl !! k') + if decide (k = k') then count else 0)%Z.
Proof.
  unfold add_count. rewrite lookup_insert. case_decide; simpl; [by subst | lia].
Qed.

Lemma add_count_dom (k : list ascii) (count : Z) (tbl : gmap (list ascii) Z) :
  dom (add_count k count tbl) = {[k]} ∪ dom tbl.
Proof. unfold add_count. by rewrite dom_insert_L. Qed.

(** The loop from any state: every signature gets the counts of its
    entries, the keys are those of the entries, the total gets all counts. *)
Lemma parse_lines_entries (lines : list (list ascii)) (tbl0 : gmap (list ascii) Z) (tot0 : Z) :
  ∃ tbl,
    parse_lines lines (tbl0, tot0) = Ok (tbl, (tot0 + count_all (entries lines))%Z) ∧
    (∀ k, default 0%Z (tbl !! k)
          = (default 0 (tbl0 !! k) + count_for k (entries lines))%Z) ∧
    dom tbl = dom tbl0 ∪ list_to_set (fst <$> entries lines).
Proof.
  revert tbl0 tot0. induction lines as [|line lines IH]; intros tbl0 tot0.
  - exists tbl0. simpl. split; [by rewrite Z.add_0_r |].
    split; [intros; lia | by rewrite (right_id_L ∅ (∪))].
  - rewrite parse_lines_cons. unfold entries. cbn [omap list_omap].
    fold (entries lines). destruct (line_entry line) as [[k count]|]; simpl.
    + destruct (IH (add_count k count tbl0) (tot0 + count)%Z) as (tbl & -> & Hlook & Hdom).
      exists tbl. split; [f_equal; f_equal; lia |]. split.
      * intros k'. rewrite Hlook, add_count_lookup. case_decide; lia.
      * rewrite Hdom, add_count_dom. cbn [fmap list_fmap list_to_set foldr fst].
        by rewrite (comm_L (∪) {[k]} (dom tbl0)), <- (assoc_L (∪)).
    + apply IH.
Qed.


Lemma add_count_comm (k1 k2 : list ascii) (c1 c2 : Z) (tbl : gmap (list ascii) Z) :
  add_count k1 c1 (add_count k2 c2 tbl) = add_count k2 c2 (add_count k1 c1 tbl).
Proof.
  apply map_eq. intros k. unfold add_count.
  destruct (decide (k1 = k2)) as [->|Hne].
  - rewrite !lookup_insert_eq, !insert_insert_eq. simpl.
    destruct (decide (k2 = k)) as [->|Hk].
    + rewrite !lookup_insert_eq. f_equal. lia.
    + by rewrite !lookup_insert_ne.
  - rewrite (lookup_insert_ne _ k2 k1), (lookup_insert_ne _ k1 k2) by done.
    destruct (decide (k1 = k)) as [->|Hk1]; destruct (decide (k2 = k)) as [->|Hk2];
      try done;
      repeat first [rewrite lookup_insert_eq | rewrite lookup_insert_ne by done]; done.
Qed.

Lemma parse_lines_perm (lines lines' : list (list ascii)) st :
  lines ≡ₚ lines' → parse_lines lines st = parse_lines lines' st.
Proof.
  intros Hperm. revert st.
  induction Hperm as [|l ls ls' _ IH|l1 l2 ls|ls1 ls2 ls3 _ IH1 _ IH2]; intros st.
  - done.
  - rewrite !parse_lines_cons. apply IH.
  - rewrite !parse_lines_cons. f_equal.
    destruct (line_entry l1) as [[k1 c1]|], (line_entry l2) as [[k2 c2]|]; simpl; try done.
    f_equal; [apply add_count_comm | lia].
  - by rewrite IH1.
Qed.

(** X11. The order of the lines of a file does not matter: two texts
    whose lines are the same up to order give the same table and total. *)
Theorem parse_file_line_order (text1 text2 : list ascii) :
  split "010" (strip text1) ≡ₚ split "010" (strip text2) →
  parse_file text1 = parse_file text2.
Proof. intros H. unfold parse_file. by apply parse_lines_perm. Qed.

Lemma parse_file_line_order_witness :
  parse_file (str "a;b 1" ++ ["010"%char] ++ str "c 2")
  = parse_file (str "c 2" ++ ["010"%char] ++ str "a;b 1").
Proof.
  apply (parse_file_line_order (str "a;b 1" ++ ["010"%char] ++ str "c 2")
           (str "c 2" ++ ["010"%char] ++ str "a;b 1")).
  change (split "010" (strip (str "a;b 1" ++ ["010"%char] ++ str "c 2")))
    with [str "a;b 1"; str "c 2"].
  change (split "010" (strip (str "c 2" ++ ["010"%char] ++ str "a;b 1")))
    with [str "c 2"; str "a;b 1"].
  apply Permutation_swap.
Defined.

Lemma line_entry_key line k count :
  line_entry line = Some (k, count) → ∃ stack_trace, k = normalize_stack_trace stack_trace.
Proof.
  unfold line_entry. destruct (strip line); [done |].
  destruct (rcut " " line) as [[p0 p1]|]; [| done].
  destruct (int_literal (strip p1)); [| done]. intros [= <- _]. by eexists.
Qed.

Lemma entries_keys lines k :
  k ∈ fst <$> entries lines → ∃ stack_trace, k = normalize_stack_trace stack_trace.
Proof.
  intros Hk. apply list_elem_of_fmap in Hk as ([k' count] & -> & Hin).
  unfold entries in Hin. apply list_elem_of_omap in Hin as (line & _ & Hentry).
  by apply line_entry_key in Hentry.
Qed.


(** *** Signs *)

Lemma digits_val_nonneg acc after s n :
  (0 ≤ acc)%Z → digits_val acc after s = Some n → (0 ≤ n)%Z.
Proof.
  revert acc after. induction s as [|c s IH]; intros acc after Hacc; simpl.
  - destruct after; [by intros [= <-] | done].
  - destruct (is_digit c).
    + apply IH. unfold digit_val. lia.
    + destruct (is_char "_" c); [| done]. destruct after; [| done]. by apply IH.
Qed.

Lemma int_literal_unsigned s n :
  head s ≠ Some "-"%char → int_literal s = Some n → (0 ≤ n)%Z.
Proof.
  unfold int_literal. destruct s as [|c s]; [done |]. intros Hc.
  unfold is_char. destruct (Ascii.eqb_spec "-" c) as [<-|_]; [done |].
  destruct (Ascii.eqb "+" c); by apply digits_val_nonneg.
Qed.

Lemma count_for_nonneg k es :
  Forall (λ e, 0 ≤ snd e)%Z es → (0 ≤ count_for k es)%Z.
Proof.
  induction 1 as [|e es He _ IH]; simpl; [done |]. case_decide; lia.
Qed.

Lemma count_all_nonneg es :
  Forall (λ e, 0 ≤ snd e)%Z es → (0 ≤ count_all es)%Z.
Proof. induction 1 as [|e es He _ IH]; simpl; [done | lia]. Qed.



(** *** Edge cases *)

Lemma rstrip_nil s : rstrip s = [] → Forall (λ c, is_space c = true) s.
Proof.
  induction s as [|c s IH]; simpl; [done |].
  destruct (rstrip s); [| done].
  destruct (is_space c) eqn:Hc; [| done]. intros _. constructor; [done | by apply IH].
Qed.

Lemma lstrip_suffix s : ∃ pre, s = pre ++ lstrip s ∧ Forall (λ c, is_space c = true) pre.
Proof.
  induction s as [|c s (pre & Hs & Hpre)]; simpl; [by exists [] |].
  destruct (is_space c) eqn:Hc; [| by exists []].
  exists (c :: pre). split; [by rewrite Hs at 1 | by constructor].
Qed.

Lemma strip_nil s : strip s = [] ↔ Forall (λ c, is_space c = true) s.
Proof.
  unfold strip. split.
  - intros H. apply rstrip_nil in H. destruct (lstrip_suffix s) as (pre & Hs & Hpre).
    rewrite Hs. by apply Forall_app.
  - intros H. by rewrite lstrip_spaces.
Qed.

(** X14. A text made of whitespace only, the empty text included, parses
    to the empty table and total 0. *)
Theorem blank_text_parses_empty (file_content : list ascii) :
  Forall (λ c, is_space c = true) file_content →
  parse_file file_content = Ok (∅, 0%Z).
Proof.
  intros H. apply strip_nil in H. unfold parse_file. by rewrite H.
Qed.

Lemma blank_text_parses_empty_witness :
  parse_file (str " " ++ ["010"%char; "009"%char]) = Ok (∅, 0%Z).
Proof.
  apply (blank_text_parses_empty (str " " ++ ["010"%char; "009"%char])).
  by repeat constructor.
Defined.

(** X15. A line that has nothing but whitespace before its last space and
    a valid count after it is counted under the empty stack signature. *)
Theorem count_only_line_counts_for_empty_signature
    (pre count_text : list ascii) (count : Z) (st : state) :
  Forall (λ c, is_space c = true) pre →
  " "%char ∉ count_text →
  int_literal (strip count_text) = Some count →
  parse_line (pre ++ " "%char :: count_text) st
  = Ok (add_count [] count (fst st), (snd st + count)%Z).
Proof.
  intros Hpre Hno Hint. rewrite parse_line_entry. unfold line_entry.
  rewrite rcut_app by done. rewrite Hint.
  apply strip_nil in Hpre. rewrite Hpre.
  destruct (strip (pre ++ " "%char :: count_text)) eqn:Hline; [| done].
  apply strip_nil in Hline. apply Forall_app in Hline as [_ Hline].
  inversion Hline as [|? ? _ Hct]; subst.
  apply strip_nil in Hct. by rewrite Hct in Hint.
Qed.

Lemma count_only_line_counts_for_empty_signature_witness :
  parse_line (str " 5") (∅, 0%Z) = Ok ({[ [] := 5%Z ]}, 5%Z).
Proof.
  etrans.
  - apply (count_only_line_counts_for_empty_signature [] (str "5") 5 (∅, 0%Z));
      [constructor | | reflexivity].
    apply not_elem_of_cons; split; [discriminate | apply not_elem_of_nil].
  - vm_compute. reflexivity.
Defined.

End ParserMore.

(** * Further properties of the diff engine *)
Module DifferMore.
Import PyStr Exn FlameGraphParser FlameGraphDiffer DiffEndpoint Props Notions
  ParserProofs DifferProofs.

(** *** The loop as a fold *)

Lemma percent_of_value (count total : Z) :
  percent_of count total = Ok (percent_value count total).
Proof.
  unfold percent_of, percent_value, py_truediv.
  destruct (Z.ltb_spec 0 total) as [Hpos|Hle]; [| done].
  destruct (Z.eqb_spec total 0); [lia | done].
Qed.

Lemma make_stack_info_value old_stacks new_stacks old_total new_total k :
  make_stack_info old_stacks new_stacks old_total new_total k
  = Ok (info_of old_stacks new_stacks old_total new_total k).
Proof. unfold make_stack_info. by rewrite !percent_of_value. Qed.

Lemma classify_all_fold old_stacks new_stacks old_total new_total ks r :
  classify_all old_stacks new_stacks old_total new_total ks r
  = Ok (foldl (λ r k, classify (info_of old_stacks new_stacks old_total new_total k) r)
          r ks).
Proof.
  revert r. induction ks as [|k ks IH]; intros r; simpl; [done |].
  rewrite make_stack_info_value. simpl. apply IH.
Qed.

(** The result before sorting, for a given iteration order. *)
Lemma calculate_diff_in_value ks old_stacks new_stacks old_total new_total :
  calculate_diff_in ks old_stacks new_stacks old_total new_total
  = Ok (sort_categories
          (foldl (λ r k, classify (info_of old_stacks new_stacks old_total new_total k) r)
             {| added := []; removed := []; increased := []; decreased := [];
                unchanged := [];
                summary := {| old_total := old_total;
                              new_total := new_total;
                              total_change := (new_total - old_total)%Z;
                              total_change_percent :=
                                percent_value (new_total - old_total) old_total |} |}
             ks)).
Proof.
  unfold calculate_diff_in.
  assert ((if (0 <? old_total)%Z
           then q ← py_truediv (new_total - old_total) old_total; Ok (q * 100)%Q
           else Ok 0%Q) = Ok (percent_value (new_total - old_total) old_total)) as ->.
  { unfold percent_value, py_truediv. destruct (Z.ltb_spec 0 old_total); [| done].
    destruct (Z.eqb_spec old_total 0); [lia | done]. }
  simpl. by rewrite classify_all_fold.
Qed.

(** *** The order in which the stacks are visited *)

Lemma same_categories_refl r : same_categories r r.
Proof. by repeat split. Qed.

Lemma same_categories_trans r1 r2 r3 :
  same_categories r1 r2 → same_categories r2 r3 → same_categories r1 r3.
Proof.
  intros (?&?&?&?&?&?) (?&?&?&?&?&?).
  repeat split; by etrans.
Qed.

Lemma classify_same info r r' :
  same_categories r r' → same_categories (classify info r) (classify info r').
Proof.
  intros (Ha & Hr & Hi & Hd & Hu & Hs). unfold classify.
  repeat case_match; repeat split; simpl; try done; by apply Permutation_app.
Qed.

Lemma classify_swap i1 i2 r :
  same_categories (classify i1 (classify i2 r)) (classify i2 (classify i1 r)).
Proof.
  unfold classify.
  repeat case_match; repeat split; simpl; try done;
    rewrite <- !app_assoc; apply Permutation_app; try done; apply Permutation_swap.
Qed.

Lemma foldl_classify_same (f : list ascii → stack_info) ks r r' :
  same_categories r r' →
  same_categories (foldl (λ r k, classify (f k) r) r ks)
                  (foldl (λ r k, classify (f k) r) r' ks).
Proof.
  revert r r'. induction ks as [|k ks IH]; intros r r' H; simpl; [done |].
  by apply IH, classify_same.
Qed.

Lemma foldl_classify_perm (f : list ascii → stack_info) ks ks' r :
  ks ≡ₚ ks' →
  same_categories (foldl (λ r k, classify (f k) r) r ks)
                  (foldl (λ r k, classify (f k) r) r ks').
Proof.
  intros Hperm. revert r.
  induction Hperm as [|k ks ks' _ IH|k1 k2 ks|ks1 ks2 ks3 _ IH1 _ IH2]; intros r; simpl.
  - apply same_categories_refl.
  - apply IH.
  - apply foldl_classify_same, classify_swap.
  - by eapply same_categories_trans.
Qed.

Lemma sort_categories_same r r' :
  same_categories r r' → same_categories (sort_categories r) (sort_categories r').
Proof.
  intros (Ha & Hr & Hi & Hd & Hu & Hs).
  repeat split; simpl; rewrite ?sort_desc_perm; done.
Qed.



(** *** What [calculate_diff] returns *)

Lemma foldl_classify_summary (f : list ascii → stack_info) ks r :
  summary (foldl (λ r k, classify (f k) r) r ks) = summary r.
Proof.
  revert r. induction ks as [|k ks IH]; intros r; simpl; [done |].
  by rewrite IH, classify_summary.
Qed.

(** The facts about the result that the other properties start from. *)
Lemma calculate_diff_facts old_stacks new_stacks old_total new_total :
  ∃ r,
    calculate_diff old_stacks new_stacks old_total new_total = Ok r ∧
    classified old_stacks new_stacks old_total new_total r ∧
    stack <$> categories r ≡ₚ elements (all_stacks old_stacks new_stacks) ∧
    summary r = {| old_total := old_total;
                   new_total := new_total;
                   total_change := (new_total - old_total)%Z;
                   total_change_percent :=
                     percent_value (new_total - old_total) old_total |}.
Proof.
  unfold calculate_diff.
  destruct (calculate_diff_in_ok (elements (all_stacks old_stacks new_stacks))
              old_stacks new_stacks old_total new_total)
    as (r & Hr & Hcl & Hperm & _).
  exists r. split; [done |]. split; [done |]. split; [done |].
  rewrite calculate_diff_in_value in Hr. injection Hr as <-.
  change (summary (sort_categories ?x)) with (summary x).
  by rewrite foldl_classify_summary.
Qed.

(** *** Which list a signature is in *)
Ltac unfold_classes H :=
  unfold is_increased, is_decreased, is_unchanged in H;
  unfold is_added, is_removed in H.

Section membership.
Context (old_stacks new_stacks : gmap (list ascii) Z) (old_total new_total : Z).
Context (r : results).
Hypothesis Hcl : classified old_stacks new_stacks old_total new_total r.
Hypothesis Hperm : stack <$> categories r ≡ₚ elements (all_stacks old_stacks new_stacks).

#[local] Abbreviation old_of k := (default 0%Z (old_stacks !! k)).
#[local] Abbreviation new_of k := (default 0%Z (new_stacks !! k)).

Lemma entry_of_key k :
  k ∈ all_stacks old_stacks new_stacks →
  ∃ i, i ∈ categories r ∧ stack i = k ∧ old_count i = old_of k ∧ new_count i = new_of k.
Proof.
  intros Hk. apply elem_of_elements in Hk. rewrite <- Hperm in Hk.
  apply list_elem_of_fmap in Hk as (i & -> & Hi).
  exists i. split; [done |]. split; [done |].
  pose proof (cl_counts _ _ _ _ _ Hcl) as Hc. rewrite Forall_forall in Hc.
  by destruct (Hc i Hi) as (-> & -> & _).
Qed.

Lemma key_of_entry i :
  i ∈ categories r →
  stack i ∈ all_stacks old_stacks new_stacks ∧
  old_count i = old_of (stack i) ∧ new_count i = new_of (stack i).
Proof.
  intros Hi. split.
  - apply elem_of_elements. rewrite <- Hperm. by apply list_elem_of_fmap_2.
  - pose proof (cl_counts _ _ _ _ _ Hcl) as Hc. rewrite Forall_forall in Hc.
    by destruct (Hc i Hi) as (-> & -> & _).
Qed.

Lemma class_of_entry i :
  i ∈ categories r →
  (i ∈ added r ∧ is_added i) ∨ (i ∈ removed r ∧ is_removed i) ∨
  (i ∈ increased r ∧ is_increased i) ∨ (i ∈ decreased r ∧ is_decreased i) ∨
  (i ∈ unchanged r ∧ is_unchanged i).
Proof.
  destruct Hcl as [_ _ Ha Hr Hi Hd Hu].
  rewrite Forall_forall in Ha, Hr, Hi, Hd, Hu.
  unfold categories. rewrite !elem_of_app.
  intros [H | [H | [H | [H | H]]]]; eauto 10.
Qed.

Lemma added_incl i : i ∈ added r → i ∈ categories r.
Proof. unfold categories. rewrite !elem_of_app. auto. Qed.
Lemma removed_incl i : i ∈ removed r → i ∈ categories r.
Proof. unfold categories. rewrite !elem_of_app. auto. Qed.
Lemma increased_incl i : i ∈ increased r → i ∈ categories r.
Proof. unfold categories. rewrite !elem_of_app. auto. Qed.
Lemma decreased_incl i : i ∈ decreased r → i ∈ categories r.
Proof. unfold categories. rewrite !elem_of_app. auto 6. Qed.
Lemma unchanged_incl i : i ∈ unchanged r → i ∈ categories r.
Proof. unfold categories. rewrite !elem_of_app. auto 6. Qed.

Lemma in_added k :
  k ∈ stack <$> added r ↔
  k ∈ all_stacks old_stacks new_stacks ∧ (old_of k = 0 ∧ 0 < new_of k)%Z.
Proof.
  split.
  - intros Hk. apply list_elem_of_fmap in Hk as (i & -> & Hi).
    destruct (key_of_entry i (added_incl i Hi)) as (HU & <- & <-).
    split; [done |]. destruct Hcl as [_ _ Ha _ _ _ _].
    rewrite Forall_forall in Ha. apply (Ha i Hi).
  - intros [HU Hc]. destruct (entry_of_key k HU) as (i & Hi & <- & Ho & Hn).
    rewrite <- Ho, <- Hn in Hc. apply list_elem_of_fmap_2.
    destruct (class_of_entry i Hi) as [[? ?] | [[_ H] | [[_ H] | [[_ H] | [_ H]]]]];
      [done | | | |]; unfold_classes H; lia.
Qed.

Lemma in_removed k :
  k ∈ stack <$> removed r ↔
  k ∈ all_stacks old_stacks new_stacks ∧ (0 < old_of k ∧ new_of k = 0)%Z.
Proof.
  split.
  - intros Hk. apply list_elem_of_fmap in Hk as (i & -> & Hi).
    destruct (key_of_entry i (removed_incl i Hi)) as (HU & <- & <-).
    split; [done |]. destruct Hcl as [_ _ _ Ha _ _ _].
    rewrite Forall_forall in Ha. apply (Ha i Hi).
  - intros [HU Hc]. destruct (entry_of_key k HU) as (i & Hi & <- & Ho & Hn).
    rewrite <- Ho, <- Hn in Hc. apply list_elem_of_fmap_2.
    destruct (class_of_entry i Hi) as [[_ H] | [[? ?] | [[_ H] | [[_ H] | [_ H]]]]];
      [| done | | |]; unfold_classes H; lia.
Qed.

Lemma in_increased k :
  k ∈ stack <$> increased r ↔
  k ∈ all_stacks old_stacks new_stacks ∧
  (¬ (old_of k = 0 ∧ 0 < new_of k) ∧ ¬ (0 < old_of k ∧ new_of k = 0) ∧
   old_of k < new_of k)%Z.
Proof.
  split.
  - intros Hk. apply list_elem_of_fmap in Hk as (i & -> & Hi).
    destruct (key_of_entry i (increased_incl i Hi)) as (HU & <- & <-).
    split; [done |]. destruct Hcl as [_ _ _ _ Ha _ _].
    rewrite Forall_forall in Ha. specialize (Ha i Hi).
    unfold_classes Ha. lia.
  - intros [HU Hc]. destruct (entry_of_key k HU) as (i & Hi & <- & Ho & Hn).
    rewrite <- Ho, <- Hn in Hc. apply list_elem_of_fmap_2.
    destruct (class_of_entry i Hi) as [[_ H] | [[_ H] | [[? ?] | [[_ H] | [_ H]]]]];
      [| | done | |]; unfold_classes H; lia.
Qed.

Lemma in_decreased k :
  k ∈ stack <$> decreased r ↔
  k ∈ all_stacks old_stacks new_stacks ∧
  (¬ (old_of k = 0 ∧ 0 < new_of k) ∧ ¬ (0 < old_of k ∧ new_of k = 0) ∧
   new_of k < old_of k)%Z.
Proof.
  split.
  - intros Hk. apply list_elem_of_fmap in Hk as (i & -> & Hi).
    destruct (key_of_entry i (decreased_incl i Hi)) as (HU & <- & <-).
    split; [done |]. destruct Hcl as [_ _ _ _ _ Ha _].
    rewrite Forall_forall in Ha. specialize (Ha i Hi).
    unfold_classes Ha. lia.
  - intros [HU Hc]. destruct (entry_of_key k HU) as (i & Hi & <- & Ho & Hn).
    rewrite <- Ho, <- Hn in Hc. apply list_elem_of_fmap_2.
    destruct (class_of_entry i Hi) as [[_ H] | [[_ H] | [[_ H] | [[? ?] | [_ H]]]]];
      [| | | done |]; unfold_classes H; lia.
Qed.

Lemma in_unchanged k :
  k ∈ stack <$> unchanged r ↔
  k ∈ all_stacks old_stacks new_stacks ∧ old_of k = new_of k.
Proof.
  split.
  - intros Hk. apply list_elem_of_fmap in Hk as (i & -> & Hi).
    destruct (key_of_entry i (unchanged_incl i Hi)) as (HU & <- & <-).
    split; [done |]. destruct Hcl as [_ _ _ _ _ _ Ha].
    rewrite Forall_forall in Ha. specialize (Ha i Hi).
    unfold_classes Ha. lia.
  - intros [HU Hc]. destruct (entry_of_key k HU) as (i & Hi & <- & Ho & Hn).
    rewrite <- Ho, <- Hn in Hc. apply list_elem_of_fmap_2.
    destruct (class_of_entry i Hi) as [[_ H] | [[_ H] | [[_ H] | [[_ H] | [? ?]]]]];
      [| | | | done]; unfold_classes H; lia.
Qed.

Lemma categories_NoDup :
  NoDup (stack <$> added r) ∧ NoDup (stack <$> removed r) ∧
  NoDup (stack <$> increased r) ∧ NoDup (stack <$> decreased r) ∧
  NoDup (stack <$> unchanged r).
Proof.
  assert (Hnd : NoDup (stack <$> categories r)) by (rewrite Hperm; apply NoDup_elements).
  unfold categories in Hnd. rewrite !fmap_app in Hnd.
  repeat (apply NoDup_app in Hnd as (? & _ & Hnd)). done.
Qed.

End membership.

(** *** Particular pairs of tables *)

Lemma fmap_nil_of_no_member {A B : Type} (f : A → B) (l : list A) :
  (∀ y, y ∉ f <$> l) → l = [].
Proof. destruct l as [|x l]; [done |]. intros H. exfalso. apply (H (f x)). by left. Qed.

Lemma percent_value_0 total : (percent_value 0 total == 0)%Q.
Proof.
  unfold percent_value. destruct (0 <? total)%Z; [| done].
  unfold Qeq. simpl. lia.
Qed.

(** Against itself, a table has nothing added, removed, increased or decreased. *)
Lemma same_table_lists (stacks : gmap (list ascii) Z) (total : Z) r :
  calculate_diff stacks stacks total total = Ok r →
  added r = [] ∧ removed r = [] ∧ increased r = [] ∧ decreased r = [].
Proof.
  intros Hr.
  destruct (calculate_diff_facts stacks stacks total total)
    as (r' & Hr' & Hcl & Hperm & Hsum).
  rewrite Hr in Hr'. injection Hr' as <-.
  split; [| split; [| split]]; apply (fmap_nil_of_no_member stack); intros k Hk.
  - apply (in_added _ _ _ _ _ Hcl Hperm) in Hk. lia.
  - apply (in_removed _ _ _ _ _ Hcl Hperm) in Hk. lia.
  - apply (in_increased _ _ _ _ _ Hcl Hperm) in Hk. lia.
  - apply (in_decreased _ _ _ _ _ Hcl Hperm) in Hk. lia.
Qed.







(** *** Sums of the count deltas *)

Lemma sum_over_perm (f : list ascii → Z) ks ks' :
  ks ≡ₚ ks' → sum_over f ks = sum_over f ks'.
Proof.
  induction 1 as [|k ks ks' _ IH|k1 k2 ks|ks1 ks2 ks3 _ IH1 _ IH2]; simpl; lia.
Qed.

Lemma sum_over_sub (f g : list ascii → Z) ks :
  sum_over (λ k, f k - g k)%Z ks = (sum_over f ks - sum_over g ks)%Z.
Proof. induction ks as [|k ks IH]; simpl; lia. Qed.

Lemma sum_over_insert (m : gmap (list ascii) Z) (i : list ascii) (x : Z) ks :
  m !! i = None → NoDup ks →
  sum_over (λ k, default 0%Z (<[i:=x]> m !! k)) ks
  = ((if decide (i ∈ ks) then x else 0) + sum_over (λ k, default 0%Z (m !! k)) ks)%Z.
Proof.
  intros Hi. induction 1 as [|k ks Hk Hnd IH]; simpl; [done |].
  rewrite IH. destruct (decide (i = k)) as [->|Hne].
  - rewrite lookup_insert_eq, Hi. simpl.
    rewrite (decide_True (P := k ∈ k :: ks)) by left.
    by rewrite (decide_False (P := k ∈ ks)).
  - rewrite lookup_insert_ne by done.
    destruct (decide (i ∈ ks)) as [Hin|Hnin].
    + rewrite (decide_True (P := i ∈ k :: ks)) by by right. lia.
    + rewrite (decide_False (P := i ∈ k :: ks)); [lia |].
      by intros [?|?]%elem_of_cons.
Qed.

Lemma sum_over_lookup (m : gmap (list ascii) Z) ks :
  NoDup ks → (∀ k, k ∈ dom m → k ∈ ks) →
  sum_over (λ k, default 0%Z (m !! k)) ks = table_sum m.
Proof.
  intros Hnd. induction m as [|i x m Hi IH] using map_ind; intros Hdom.
  - rewrite table_sum_empty. clear. induction ks as [|k ks IH]; simpl; [done |].
    by rewrite lookup_empty, IH.
  - rewrite sum_over_insert, table_sum_insert_fresh by done.
    rewrite decide_True by (apply Hdom; rewrite dom_insert_L; apply elem_of_union_l;
                            by apply elem_of_singleton).
    rewrite IH; [done |]. intros k Hk. apply Hdom. rewrite dom_insert_L.
    by apply elem_of_union_r.
Qed.

Lemma diff_count_sum_counts old_stacks new_stacks l :
  Forall (counts_of old_stacks new_stacks) l →
  diff_count_sum l
  = sum_over (λ k, default 0 (new_stacks !! k) - default 0 (old_stacks !! k))%Z
      (stack <$> l).
Proof.
  induction 1 as [|i l (Ho & Hn & Hd) _ IH]; simpl; [done |].
  rewrite IH, Hd, Ho, Hn. done.
Qed.

Lemma diff_counts_add_up_aux
    (old_stacks new_stacks : gmap (list ascii) Z) (old_total new_total : Z) :
  ∃ r,
    calculate_diff old_stacks new_stacks old_total new_total = Ok r ∧
    diff_count_sum (categories r) = (table_sum new_stacks - table_sum old_stacks)%Z.
Proof.
  destruct (calculate_diff_facts old_stacks new_stacks old_total new_total)
    as (r & Hr & Hcl & Hperm & _).
  exists r. split; [done |].
  rewrite (diff_count_sum_counts old_stacks new_stacks) by apply Hcl.
  rewrite (sum_over_perm _ _ _ Hperm), sum_over_sub.
  rewrite (sum_over_lookup new_stacks), (sum_over_lookup old_stacks);
    [done | apply NoDup_elements | | apply NoDup_elements |];
    intros k Hk; apply elem_of_elements; unfold all_stacks.
  - by apply elem_of_union_l.
  - by apply elem_of_union_r.
Qed.


Lemma parse_file_sum file_content :
  ∃ tbl tot, parse_file file_content = Ok (tbl, tot) ∧ table_sum tbl = tot.
Proof.
  unfold parse_file.
  destruct (parse_lines_total (split "010" (strip file_content)) (∅, 0%Z))
    as ([tbl tot] & Hrun).
  exists tbl, tot. split; [done |].
  apply (parse_lines_sum _ _ _ Hrun). simpl. apply table_sum_empty.
Qed.


(** *** Percentages *)

Lemma round_half_even_bounds (q : Q) (m n : Z) :
  (inject_Z m <= q)%Q → (q <= inject_Z n)%Q → (m ≤ round_half_even q ≤ n)%Z.
Proof.
  intros Hm Hn. unfold round_half_even.
  pose proof (Qfloor_le q) as Hfl.
  assert (Hfm : (m ≤ Qfloor q)%Z).
  { rewrite <- (Qfloor_Z m). by apply Qfloor_resp_le. }
  assert (Hfn : (Qfloor q ≤ n)%Z).
  { rewrite <- (Qfloor_Z n). by apply Qfloor_resp_le. }
  set (f := Qfloor q) in *.
  assert (Hhalf : ((1 # 2) <= q - inject_Z f)%Q → (f + 1 ≤ n)%Z).
  { intros Hh. destruct (Z.eq_dec f n) as [->|]; [| lia]. lra. }
  destruct (q - inject_Z f ?= 1 # 2)%Q eqn:E.
  - apply Qeq_alt in E. assert (Hh : ((1 # 2) <= q - inject_Z f)%Q) by lra.
    apply Hhalf in Hh. destruct (Z.even f); lia.
  - lia.
  - apply Qgt_alt in E. assert (Hh : ((1 # 2) <= q - inject_Z f)%Q) by lra.
    apply Hhalf in Hh. lia.
Qed.

Lemma round2_bounds (q : Q) (a b : Z) :
  (inject_Z a <= q)%Q → (q <= inject_Z b)%Q →
  (inject_Z a <= round2 q)%Q ∧ (round2 q <= inject_Z b)%Q.
Proof.
  intros Ha Hb. unfold round2.
  destruct (round_half_even_bounds (q * 100) (a * 100) (b * 100)) as [Hlo Hhi].
  - rewrite inject_Z_mult. change (inject_Z 100) with 100%Q. lra.
  - rewrite inject_Z_mult. change (inject_Z 100) with 100%Q. lra.
  - rewrite !Qred_correct. unfold Qle, inject_Z. simpl. lia.
Qed.

Lemma percent_value_bounds (count total : Z) :
  (0 ≤ count ≤ total)%Z →
  (0 <= percent_value count total)%Q ∧ (percent_value count total <= 100)%Q.
Proof.
  intros Hc. unfold percent_value. destruct (Z.ltb_spec 0 total) as [Hpos|]; [| done].
  destruct total as [|p|p]; try lia.
  unfold Qle, Qdiv, Qmult, Qinv, inject_Z. simpl. split; nia.
Qed.

Lemma table_sum_nonneg (m : gmap (list ascii) Z) :
  (∀ k v, m !! k = Some v → (0 ≤ v)%Z) → (0 ≤ table_sum m)%Z.
Proof.
  induction m as [|i x m Hi IH] using map_ind; intros Hm.
  - by rewrite table_sum_empty.
  - rewrite table_sum_insert_fresh by done.
    assert (0 ≤ x)%Z by (apply (Hm i); apply lookup_insert_eq).
    assert (0 ≤ table_sum m)%Z; [| lia].
    apply IH. intros k v Hk. apply (Hm k). rewrite lookup_insert_ne; [done |].
    intros ->. congruence.
Qed.

Lemma lookup_le_table_sum (m : gmap (list ascii) Z) k :
  (∀ k v, m !! k = Some v → (0 ≤ v)%Z) →
  (0 ≤ default 0 (m !! k) ≤ table_sum m)%Z.
Proof.
  intros Hm. pose proof (table_sum_nonneg m Hm) as Hsum.
  destruct (m !! k) as [v|] eqn:Hk; simpl; [| lia].
  rewrite (table_sum_delete k v m Hk).
  assert (0 ≤ table_sum (delete k m))%Z.
  { apply table_sum_nonneg. intros k' v' Hk'.
    apply lookup_delete_Some in Hk' as [_ Hk']. by eapply Hm. }
  pose proof (Hm k v Hk). lia.
Qed.

(** Every entry of the result is the entry built for its signature. *)
Lemma entries_are_info old_stacks new_stacks old_total new_total r :
  calculate_diff old_stacks new_stacks old_total new_total = Ok r →
  Forall (λ i, i = info_of old_stacks new_stacks old_total new_total (stack i))
    (categories r).
Proof.
  unfold calculate_diff. rewrite calculate_diff_in_value. intros [= <-].
  rewrite sort_categories_perm.
  generalize (elements (all_stacks old_stacks new_stacks)) as ks.
  match goal with |- context [foldl _ ?r0 _] =>
    assert (Hr0 : Forall (λ i, i = info_of old_stacks new_stacks old_total new_total
                                     (stack i)) (categories r0)) by done;
    revert Hr0; generalize r0
  end.
  intros r0 Hr0 ks. revert r0 Hr0.
  induction ks as [|k ks IH]; intros r0 Hr0; simpl; [done |].
  apply IH. rewrite classify_categories. by constructor.
Qed.



End DifferMore.

(** * Further properties of the correlation report *)
Module DebugMore.
Import PyStr Exn FlameGraphParser FlameGraphDiffer DiffEndpoint DebugStacks Props
  Notions PyStrFacts NormalizeProofs NormalizeMore DebugProofs DifferMore.

#[local] Arguments Ascii.eqb : simpl never.

(** *** The method of a signature *)

Lemma join_split sep s : join sep (split sep s) = s.
Proof.
  induction s as [|c s IH]; simpl; [done |].
  destruct (Ascii.eqb_spec c sep) as [->|Hne].
  - pose proof (split_not_nil sep s) as Hnil.
    destruct (split sep s) as [|h t]; [done |]. simpl in *. by rewrite IH.
  - pose proof (split_not_nil sep s) as Hnil.
    destruct (split sep s) as [|h t]; [done |].
    destruct t as [|h' t]; simpl in *; by rewrite <- IH.
Qed.

Lemma join_snoc sep (xs : list (list ascii)) (l : list ascii) :
  xs ≠ [] → join sep (xs ++ [l]) = join sep xs ++ sep :: l.
Proof.
  induction xs as [|x xs IH]; [done |]. intros _.
  destruct xs as [|y xs]; [done |].
  change (join sep ((x :: y :: xs) ++ [l])) with (x ++ sep :: join sep ((y :: xs) ++ [l])).
  rewrite IH by done.
  change (join sep (x :: y :: xs)) with (x ++ sep :: join sep (y :: xs)).
  by rewrite <- app_assoc.
Qed.

(** The last part of a split is the text after the last separator. *)
Lemma split_last_spec sep (s l : list ascii) :
  last (split sep s) = Some l →
  (sep ∉ l) ∧ (s = l ∨ ∃ p, s = p ++ sep :: l).
Proof.
  intros Hlast. apply last_Some in Hlast as [xs Hxs].
  split.
  - pose proof (split_Forall sep s) as Hall. rewrite Hxs in Hall.
    apply Forall_app in Hall as [_ Hall]. by inversion Hall.
  - rewrite <- (join_split sep s), Hxs.
    destruct xs as [|x xs]; [by left |]. right.
    exists (join sep (x :: xs)). by apply join_snoc.
Qed.

Lemma leaf_identifier_suffix (signature : list ascii) :
  ∃ p, signature = p ++ leaf_identifier signature ∧
       (";"%char ∉ leaf_identifier signature) ∧
       ("/"%char ∉ leaf_identifier signature) ∧
       (p = [] ∨ ∃ p', p = p' ++ [";"%char] ∨ p = p' ++ ["/"%char]).
Proof.
  unfold leaf_identifier.
  destruct (last (split ";" signature)) as [frame|] eqn:Hframe;
    [| apply last_None in Hframe; by apply split_not_nil in Hframe].
  simpl.
  destruct (last (split "/" frame)) as [m|] eqn:Hm;
    [| apply last_None in Hm; by apply split_not_nil in Hm].
  simpl.
  apply split_last_spec in Hframe as [Hsemi Hf].
  apply split_last_spec in Hm as [Hslash Hl].
  assert (Hsemi_m : ";"%char ∉ m).
  { intros Hin. apply Hsemi. destruct Hl as [-> | [q ->]]; [done |].
    apply elem_of_app. right. by right. }
  destruct Hf as [-> | [p ->]]; destruct Hl as [-> | [q ->]].
  - exists []. repeat (split; [done |]). by left.
  - exists (q ++ ["/"%char]). rewrite <- app_assoc.
    repeat (split; [done |]). right. exists q. by right.
  - exists (p ++ [";"%char]). rewrite <- app_assoc.
    repeat (split; [done |]). right. exists p. by left.
  - exists ((p ++ ";"%char :: q) ++ ["/"%char]). rewrite <- !app_assoc.
    split; [done |]. repeat (split; [done |]). right. exists (p ++ ";"%char :: q).
    right. by rewrite <- !app_assoc.
Qed.

(** X24. The method that [debug_stacks] takes from a signature is the longest
    suffix of the signature that contains neither [;] nor [/]: it is a suffix
    without these two characters, and it is the whole signature or is preceded
    by one of them. *)
Theorem last_method_longest_suffix (signature : list ascii) :
  ∃ p m,
    last_method signature = Some m ∧
    signature = p ++ m ∧
    (";"%char ∉ m) ∧ ("/"%char ∉ m) ∧
    (p = [] ∨ ∃ p', p = p' ++ [";"%char] ∨ p = p' ++ ["/"%char]).
Proof.
  destruct (leaf_identifier_suffix signature) as (p & Hp).
  exists p, (leaf_identifier signature). split; [apply last_method_leaf | exact Hp].
Qed.

(** *** Examples *)

Lemma contains_leaf (signature : list ascii) :
  contains (leaf_identifier signature) signature = true.
Proof.
  destruct (leaf_identifier_suffix signature) as (p & Hp & _).
  rewrite Hp at 2. rewrite <- (app_nil_r (leaf_identifier signature)) at 2.
  apply contains_app.
Qed.

Lemma examples_of_method items m :
  m ∈ methods_of items → examples_of m items ≠ [].
Proof.
  intros Hm. apply methods_of_spec in Hm as (i & Hi & ->).
  unfold examples_of. intros Hnil.
  assert (Hin : In i (List.filter (λ item, contains (leaf_identifier (stack i)) (stack item))
                        items)).
  { apply filter_In. split; [by apply list_elem_of_In | apply contains_leaf]. }
  rewrite Hnil in Hin. by inversion Hin.
Qed.

Lemma build_examples_all methods r :
  Forall (λ m, m ∈ methods_of (added r) ∩ methods_of (removed r)) methods →
  method <$> build_examples methods r = methods.
Proof.
  induction 1 as [|m methods Hm Hall IH]; simpl; [done |].
  apply elem_of_intersection in Hm as [Ha Hr].
  apply examples_of_method in Ha. apply examples_of_method in Hr.
  destruct (examples_of m (added r)) as [|a ra]; [done |].
  destruct (examples_of m (removed r)) as [|b rb]; [done |].
  cbn [fmap list_fmap method]. f_equal. exact IH.
Qed.

Lemma take_elements_Forall (X : gset (list ascii)) n :
  Forall (λ m, m ∈ X) (take n (elements X)).
Proof. apply Forall_forall. intros m. apply elem_of_take_elements. Qed.

(** X25. No example is ever skipped: the examples of the report are for the
    first five of the listed common methods, in that order, so there are
    exactly min(5, common_methods_count) of them. *)
Theorem examples_for_first_common_methods (r : results) :
  method <$> examples (correlate r) = take 5 (common_methods (correlate r)) ∧
  length (examples (correlate r)) = min 5 (common_methods_count (correlate r)).
Proof.
  unfold correlate. simpl.
  set (common := methods_of (added r) ∩ methods_of (removed r)).
  assert (Hex : method <$> build_examples (take 5 (elements common)) r
                = take 5 (elements common)).
  { apply build_examples_all. apply take_elements_Forall. }
  split.
  - rewrite Hex, take_take. done.
  - rewrite <- (length_fmap method), Hex, length_take. done.
Qed.

(** *** Common methods *)

Lemma methods_of_size items : size (methods_of items) ≤ length items.
Proof.
  unfold methods_of.
  assert (Hgen : ∀ acc : gset (list ascii),
    size (foldl (λ acc item,
                   match last_method (stack item) with
                   | Some m => acc ∪ {[m]}
                   | None => acc
                   end) acc items) ≤ size acc + length items).
  { induction items as [|i items IH]; intros acc; simpl; [lia |].
    etrans; [apply IH |]. rewrite last_method_leaf.
    rewrite size_union_alt.
    assert (size (({[leaf_identifier (stack i)]} : gset (list ascii)) ∖ acc) ≤ 1); [| lia].
    etrans; [apply subseteq_size, subseteq_difference_l; reflexivity |].
    by rewrite size_singleton. }
  etrans; [apply Hgen |]. by rewrite size_empty.
Qed.

(** X26. The listed common methods are pairwise distinct and there are exactly
    min(10, common_methods_count) of them; the count of common methods never
    exceeds the number of added entries nor the number of removed entries. *)
Theorem common_methods_listing (r : results) :
  let rep := correlate r in
  NoDup (common_methods rep) ∧
  length (common_methods rep) = min 10 (common_methods_count rep) ∧
  common_methods_count rep ≤ total_added (report_totals rep) ∧
  common_methods_count rep ≤ total_removed (report_totals rep).
Proof.
  unfold correlate. simpl.
  set (common := methods_of (added r) ∩ methods_of (removed r)).
  split; [| split; [| split]].
  - eapply sublist_NoDup; [apply (NoDup_elements common) | apply sublist_take].
  - by rewrite length_take.
  - etrans; [| apply methods_of_size]. apply subseteq_size, intersection_subseteq_l.
  - etrans; [| apply methods_of_size]. apply subseteq_size, intersection_subseteq_r.
Qed.

(** *** The endpoint *)



End DebugMore.
